(** * gdrive_transfer: recursive transfer of Google Drive ownership

    A shallow embedding of [src/gdrive_transfer.py]: the two listing
    functions ([list_owned_files], [list_owned_in_folders]), [transfer_file]
    and the part of [main] that runs after the Drive service has been built.

    - The Drive service is an interface ([Drive]) over an abstract remote
      state [W]: [files().list(...).execute()] reads that state and either
      returns a response or raises [HttpError];
      [permissions().create(...).execute()] may change it.
    - Every remote call and every printed line is recorded, in program
      order, in a trace of [event]s.
    - The two [while] loops and the service determine how long the program
      runs; the loops take a [fuel] bounding the number of loop bodies
      executed, and [OutOfFuel] stands for "still running". *)

From stdpp Require Import base option list sets gmap strings pretty relations.

Open Scope string_scope.
Open Scope nat_scope.
Open Scope list_scope.

(** ** Data *)

(** One element of [response["files"]], with the fields asked for by
    [fields="nextPageToken, files(id, name, mimeType)"].  The code reads
    [item["id"]] and [item["name"]] directly and [item.get("mimeType")]. *)
Record Item := mkItem {
  id : string;
  name : string;
  mimeType : option string
}.

#[global] Instance Item_eq_dec : EqDecision Item.
Proof. solve_decision. Defined.

(** [googleapiclient.errors.HttpError]; [msg] is what [f"{error}"] prints. *)
Record HttpError := mkHttpError { msg : string }.

(** The keyword arguments of [files().list] that vary between calls
    ([supportsAllDrives], [includeItemsFromAllDrives] and [fields] are the
    same constants everywhere). *)
Record ListRequest := mkListRequest {
  q : string;
  pageSize : nat;
  pageToken : option string
}.

#[global] Instance ListRequest_eq_dec : EqDecision ListRequest.
Proof. solve_decision. Defined.

(** The dict returned by [files().list(...).execute()]; both keys are read
    with [response.get]. *)
Record Response := mkResponse {
  files : option (list Item);
  nextPageToken : option string
}.

(** The [permission] body of [transfer_file]. *)
Record Permission := mkPermission {
  type : string;
  role : string;
  emailAddress : string
}.

#[global] Instance Permission_eq_dec : EqDecision Permission.
Proof. solve_decision. Defined.

(** The [argparse.Namespace] fields used by [main] after the service is
    built.  [folder_ids] is [None] when [--folder-id] was never given. *)
Record Args := mkArgs {
  source_email : string;
  target_email : string;
  folder_ids : option (list string);
  dry_run : bool
}.

(** What the program does to the outside, in order. *)
Inductive event :=
| FilesList (req : ListRequest)
| PermissionsCreate (fileId : string) (body : Permission)
| Stdout (line : string)
| Stderr (line : string).

#[global] Instance event_eq_dec : EqDecision event.
Proof. solve_decision. Defined.

(** Result of running a piece of code that may raise [HttpError]. *)
Inductive outcome (A : Type) :=
| Done (a : A)
| Raise (e : HttpError)
| OutOfFuel.
Arguments Done {A} a.
Arguments Raise {A} e.
Arguments OutOfFuel {A}.

(** The [service] object.  Listing is a read of the remote state;
    creating a permission returns the new remote state and the error
    raised, if any. *)
Class Drive (W : Type) := {
  files_list : W → ListRequest → HttpError + Response;
  permissions_create : W → string → Permission → W * option HttpError
}.

(** ** Python helpers *)

(** [response.get("files", [])] *)
Definition response_files (response : Response) : list Item :=
  default [] (files response).

(** Truth value of an [Optional[str]]: [None] and the empty string are
    false. *)
Definition truthy (page_token : option string) : bool :=
  match page_token with
  | None => false
  | Some EmptyString => false
  | Some _ => true
  end.

(** Truth value of an optional list: [None] and [[]] are false. *)
Definition truthy_list {A} (l : option (list A)) : bool :=
  match l with
  | None => false
  | Some [] => false
  | Some _ => true
  end.

Definition FOLDER_MIME : string := "application/vnd.google-apps.folder".

(** [item.get("mimeType") == "application/vnd.google-apps.folder"] *)
Definition is_folder (item : Item) : bool :=
  bool_decide (mimeType item = Some FOLDER_MIME).

(** ** list_owned_files *)

Definition owned_query (source_email : string) : string :=
  "'" +:+ source_email +:+ "' in owners and trashed = false".

(** The [while True] loop of [list_owned_files]; [files] and [page_token]
    are the local variables at the loop head. *)
Fixpoint list_owned_files_loop `{Drive W} (fuel : nat) (service : W)
    (query : string) (page_token : option string) (files : list Item)
  : list event * outcome (list Item) :=
  match fuel with
  | 0 => ([], OutOfFuel)
  | S fuel =>
    let req := mkListRequest query 1000 page_token in
    match files_list service req with
    | inl error => ([FilesList req], Raise error)
    | inr response =>
      let files := files ++ response_files response in
      let page_token := nextPageToken response in
      if negb (truthy page_token) then ([FilesList req], Done files)
      else
        let '(t, r) := list_owned_files_loop fuel service query page_token files in
        (FilesList req :: t, r)
    end
  end.

Definition list_owned_files `{Drive W} (fuel : nat) (service : W)
    (source_email : string) : list event * outcome (list Item) :=
  list_owned_files_loop fuel service (owned_query source_email) None [].

(** ** list_owned_in_folders *)

Definition folder_query (source_email folder_id : string) : string :=
  "'" +:+ folder_id +:+ "' in parents and trashed = false and '"
      +:+ source_email +:+ "' in owners".

(** Body of [for item in response.get("files", [])]: the local state is
    the pair of [queue] and [files]. *)
Definition visit_item (st : list string * list Item) (item : Item)
  : list string * list Item :=
  let '(queue, files) := st in
  let files := files ++ [item] in
  if is_folder item then (queue ++ [id item], files) else (queue, files).

(** The inner [while True] loop, for one [query]. *)
Fixpoint folder_pages_loop `{Drive W} (fuel : nat) (service : W)
    (query : string) (page_token : option string)
    (st : list string * list Item)
  : list event * outcome (list string * list Item) :=
  match fuel with
  | 0 => ([], OutOfFuel)
  | S fuel =>
    let req := mkListRequest query 200 page_token in
    match files_list service req with
    | inl error => ([FilesList req], Raise error)
    | inr response =>
      let st := foldl visit_item st (response_files response) in
      let page_token := nextPageToken response in
      if negb (truthy page_token) then ([FilesList req], Done st)
      else
        let '(t, r) := folder_pages_loop fuel service query page_token st in
        (FilesList req :: t, r)
    end
  end.

(** The outer [while queue] loop; [seen], [queue] and [files] are the local
    variables at the loop head.  An empty queue ends the loop whatever the
    fuel; each execution of the body uses one unit. *)
Fixpoint folders_loop `{Drive W} (fuel : nat) (service : W)
    (source_email : string) (seen : gset string) (queue : list string)
    (files : list Item) : list event * outcome (list Item) :=
  match queue with
  | [] => ([], Done files)
  | folder_id :: queue =>
    match fuel with
    | 0 => ([], OutOfFuel)
    | S fuel =>
      if decide (folder_id ∈ seen) then
        folders_loop fuel service source_email seen queue files
      else
        let seen := seen ∪ {[folder_id]} in
        let query := folder_query source_email folder_id in
        match folder_pages_loop fuel service query None (queue, files) with
        | (t1, Done (queue, files)) =>
          let '(t2, r) :=
            folders_loop fuel service source_email seen queue files in
          (t1 ++ t2, r)
        | (t1, Raise error) => (t1, Raise error)
        | (t1, OutOfFuel) => (t1, OutOfFuel)
        end
    end
  end.

Definition list_owned_in_folders `{Drive W} (fuel : nat) (service : W)
    (source_email : string) (folder_ids : list string)
  : list event * outcome (list Item) :=
  folders_loop fuel service source_email ∅ folder_ids [].

(** ** transfer_file *)

Definition owner_permission (target_email : string) : Permission :=
  mkPermission "user" "owner" target_email.

(** Returns the call made, the remote state after it, and the error raised
    by [.execute()], if any. *)
Definition transfer_file `{Drive W} (service : W) (file_id target_email : string)
  : list event * W * option HttpError :=
  let permission := owner_permission target_email in
  let '(service, raised) := permissions_create service file_id permission in
  ([PermissionsCreate file_id permission], service, raised).

(** ** main *)

Definition would_transfer_line (item : Item) : event :=
  Stdout ("[dry-run] Would transfer " +:+ name item +:+ " (" +:+ id item +:+ ")").

Definition transferred_line (item : Item) : event :=
  Stdout ("Transferred ownership: " +:+ name item +:+ " (" +:+ id item +:+ ")").

Definition failed_line (item : Item) (error : HttpError) : event :=
  Stderr ("Failed to transfer " +:+ name item +:+ " (" +:+ id item +:+ "): "
          +:+ msg error).

(** What the [try]/[except] around [transfer_file] prints. *)
Definition outcome_line (item : Item) (raised : option HttpError) : event :=
  match raised with
  | None => transferred_line item
  | Some error => failed_line item error
  end.

Definition found_line (files : list Item) : event :=
  Stdout ("Found " +:+ pretty (length files) +:+ " files/folders to transfer.").

Definition no_files_line : event :=
  Stdout "No files owned by the source account matched the selection.".

Definition listing_failed_line (error : HttpError) : event :=
  Stderr ("Failed to list files: " +:+ msg error).

(** The [for item in files] loop of [main]. *)
Fixpoint transfer_loop `{Drive W} (args : Args) (service : W) (files : list Item)
  : list event * W :=
  match files with
  | [] => ([], service)
  | item :: files =>
    if dry_run args then
      let '(t, service) := transfer_loop args service files in
      (would_transfer_line item :: t, service)
    else
      let '(t1, service, raised) :=
        transfer_file service (id item) (target_email args) in
      let '(t, service) := transfer_loop args service files in
      (t1 ++ outcome_line item raised :: t, service)
  end.

(** The body of the first [try] of [main]. *)
Definition list_selected `{Drive W} (fuel : nat) (args : Args) (service : W)
  : list event * outcome (list Item) :=
  if truthy_list (folder_ids args) then
    list_owned_in_folders fuel service (source_email args)
      (default [] (folder_ids args))
  else list_owned_files fuel service (source_email args).

(** [main] from the [try] on: the trace, the remote state at exit, and the
    exit code ([None]: the listing is still running when the fuel ends). *)
Definition main `{Drive W} (fuel : nat) (args : Args) (service : W)
  : list event * W * option Z :=
  let '(t, r) := list_selected fuel args service in
  match r with
  | OutOfFuel => (t, service, None)
  | Raise error => (t ++ [listing_failed_line error], service, Some 1%Z)
  | Done [] => (t ++ [no_files_line], service, Some 0%Z)
  | Done files =>
    let '(t2, service) := transfer_loop args service files in
    (t ++ found_line files :: t2, service, Some 0%Z)
  end.

(** * Specification vocabulary *)

(** The items a query yields when its pages are followed to the end, in
    page order. *)
Fixpoint listing `{Drive W} (fuel : nat) (service : W) (query : string)
    (size : nat) (page_token : option string) : outcome (list Item) :=
  match fuel with
  | 0 => OutOfFuel
  | S fuel =>
    match files_list service (mkListRequest query size page_token) with
    | inl error => Raise error
    | inr response =>
      if negb (truthy (nextPageToken response)) then
        Done (response_files response)
      else
        match listing fuel service query size (nextPageToken response) with
        | Done rest => Done (response_files response ++ rest)
        | r => r
        end
    end
  end.

(** The IDs enqueued for a list of returned items. *)
Definition folder_ids_of (items : list Item) : list string :=
  id <$> filter (λ item, is_folder item = true) items.

Section Graph.
Context `{Drive W} (service : W) (source_email : string).

(** [items] is the complete answer to the query for the children of
    [folder_id] that [source_email] owns and that are not trashed. *)
Definition children (folder_id : string) (items : list Item) : Prop :=
  ∃ fuel, listing fuel service (folder_query source_email folder_id) 200 None
          = Done items.

(** [g] is a sub-folder listed under [f]. *)
Definition subfolder (f g : string) : Prop :=
  ∃ items, children f items ∧ g ∈ folder_ids_of items.

(** Folders reachable from the roots through listed sub-folders. *)
Definition reach (roots : list string) (f : string) : Prop :=
  ∃ r, r ∈ roots ∧ rtc subfolder r f.

(** Items listed under a reachable folder. *)
Definition reachable_item (roots : list string) (item : Item) : Prop :=
  ∃ f items, reach roots f ∧ children f items ∧ item ∈ items.

Definition acyclic (roots : list string) : Prop :=
  ∀ f, reach roots f → ¬ tc subfolder f f.

(** The reachable folders are finitely many. *)
Definition finite_reach (roots : list string) : Prop :=
  ∃ universe : list string, ∀ f, reach roots f → f ∈ universe.

End Graph.

(** Occurrences of an item ID in a list of items. *)
Definition count_id (i : string) (items : list Item) : nat :=
  length (filter (λ item, id item = i) items).

(** The ID [i] is listed under exactly one reachable folder, and once
    there. *)
Definition listed_once `{Drive W} (service : W) (source_email : string)
    (roots : list string) (i : string) : Prop :=
  ∃ f items,
    reach service source_email roots f ∧ children service source_email f items
    ∧ count_id i items = 1
    ∧ ∀ g items', reach service source_email roots g → g ≠ f →
                  children service source_email g items' → count_id i items' = 0.

(** Requests for the first page of a folder's children in a trace. *)
Definition expansions (source_email folder_id : string) (t : list event) : nat :=
  length (filter (λ ev, ev = FilesList (mkListRequest
                     (folder_query source_email folder_id) 200 None)) t).

Definition is_grant (ev : event) : bool :=
  match ev with PermissionsCreate _ _ => true | _ => false end.

Definition is_list_call (ev : event) : bool :=
  match ev with FilesList _ => true | _ => false end.

Definition is_stderr (ev : event) : bool :=
  match ev with Stderr _ => true | _ => false end.

(** The answers of the remote system when ownership of [ids] is granted in
    order with the same permission body, and its state afterwards. *)
Fixpoint grant_all `{Drive W} (service : W) (body : Permission) (ids : list string)
  : list (option HttpError) * W :=
  match ids with
  | [] => ([], service)
  | i :: ids =>
    let '(service, raised) := permissions_create service i body in
    let '(answers, service) := grant_all service body ids in
    (raised :: answers, service)
  end.

(** One grant call and one outcome line per item, in order. *)
Definition transfer_events (target_email : string) (files : list Item)
    (answers : list (option HttpError)) : list event :=
  concat (zip_with (λ item raised,
                      [PermissionsCreate (id item) (owner_permission target_email);
                       outcome_line item raised])
                   files answers).

(** The claim "every reachable item occurs exactly once in the returned
    list", as a property of one service and one set of roots. *)
Definition visits_exactly_once `{Drive W} (service : W) (source_email : string)
    (roots : list string) : Prop :=
  ∀ fuel t result, list_owned_in_folders fuel service source_email roots
                   = (t, Done result) →
    ∀ item, reachable_item service source_email roots item →
            count_id (id item) result = 1.

(** * A test double for the Drive service

    A drive given by tables: the pages answered for each folder's children
    query, the pages answered for the unscoped query, and the IDs on which
    granting ownership is refused.  Page [k > 0] is asked for with a token of
    [k] characters. *)

Record FakeDrive := mkFake {
  fake_owner : string;
  fake_tree : list (string * list (HttpError + list Item));
  fake_flat : list (HttpError + list Item);
  fake_locked : list string;
  fake_granted : list (string * string)
}.

Fixpoint fake_token (k : nat) : string :=
  match k with
  | 0 => ""
  | S k => "p" +:+ fake_token k
  end.

Definition fake_index (page_token : option string) : nat :=
  match page_token with
  | None => 0
  | Some s => String.length s
  end.

Fixpoint fake_lookup (owner : string)
    (tree : list (string * list (HttpError + list Item))) (query : string)
  : option (list (HttpError + list Item)) :=
  match tree with
  | [] => None
  | (folder_id, pages) :: tree =>
    if decide (query = folder_query owner folder_id) then Some pages
    else fake_lookup owner tree query
  end.

Definition fake_pages (d : FakeDrive) (query : string)
  : list (HttpError + list Item) :=
  match fake_lookup (fake_owner d) (fake_tree d) query with
  | Some pages => pages
  | None => if decide (query = owned_query (fake_owner d)) then fake_flat d else []
  end.

Definition fake_files_list (d : FakeDrive) (req : ListRequest)
  : HttpError + Response :=
  let pages := fake_pages d (q req) in
  let k := fake_index (pageToken req) in
  match pages !! k with
  | Some (inl error) => inl error
  | Some (inr items) =>
    inr (mkResponse (Some items)
           (if decide (S k < length pages) then Some (fake_token (S k)) else None))
  | None => inr (mkResponse None None)
  end.

Definition fake_permissions_create (d : FakeDrive) (file_id : string)
    (body : Permission) : FakeDrive * option HttpError :=
  if decide (file_id ∈ fake_locked d) then
    (d, Some (mkHttpError "403 insufficientFilePermissions"))
  else
    (mkFake (fake_owner d) (fake_tree d) (fake_flat d) (fake_locked d)
            (fake_granted d ++ [(file_id, emailAddress body)]), None).

(** The pages of a folder's entry, the items of a page that was answered,
    and the complete listing of a folder when every page is answered. *)
Fixpoint fake_folder_pages (tree : list (string * list (HttpError + list Item)))
    (folder_id : string) : list (HttpError + list Item) :=
  match tree with
  | [] => []
  | (f, pages) :: tree =>
    if decide (folder_id = f) then pages else fake_folder_pages tree folder_id
  end.

Definition page_items (page : HttpError + list Item) : list Item :=
  match page with
  | inr items => items
  | inl _ => []
  end.

Definition page_ok (page : HttpError + list Item) : bool :=
  match page with
  | inr _ => true
  | inl _ => false
  end.

Definition fake_items (d : FakeDrive) (folder_id : string) : list Item :=
  concat (page_items <$> fake_folder_pages (fake_tree d) folder_id).

(** No page of the tree fails, and the unscoped table is empty. *)
Definition fake_healthy (d : FakeDrive) : bool :=
  forallb (λ entry, forallb page_ok entry.2) (fake_tree d)
  && bool_decide (fake_flat d = []).

(** Every folder ID listed anywhere in the tree. *)
Definition fake_folders (d : FakeDrive) : list string :=
  concat ((λ entry, folder_ids_of (concat (page_items <$> entry.2)))
          <$> fake_tree d).

#[global] Instance fake_drive : Drive FakeDrive := {
  files_list := fake_files_list;
  permissions_create := fake_permissions_create
}.

Definition folder (i : string) : Item := mkItem i ("dir " +:+ i) (Some FOLDER_MIME).
Definition doc (i : string) : Item := mkItem i ("doc " +:+ i) (Some "application/pdf").

Definition alice : string := "alice@example.com".
Definition bob : string := "bob@example.com".

(** Folder A holds folders B and C; the file X is listed under both. *)
Definition diamond : FakeDrive :=
  mkFake alice
    [("A", [inr [folder "B"; folder "C"]]);
     ("B", [inr [doc "X"]]);
     ("C", [inr [doc "X"]])]
    [] [] [].

(** A lists itself; B and C list each other.  A answers in two pages. *)
Definition knot : FakeDrive :=
  mkFake alice
    [("A", [inr [folder "A"; doc "a1"]; inr [folder "B"]]);
     ("B", [inr [folder "C"]]);
     ("C", [inr [folder "B"; doc "c1"]])]
    [] [] [].

(** A tree: R holds D and two files over two pages; D holds one file. *)
Definition tree : FakeDrive :=
  mkFake alice
    [("R", [inr [folder "D"; doc "r1"]; inr [doc "r2"]]);
     ("D", [inr [doc "d1"]])]
    [] [] [].

(** As [tree], but the second page of R fails. *)
Definition broken : FakeDrive :=
  mkFake alice
    [("R", [inr [folder "D"; doc "r1"]; inl (mkHttpError "500 backendError")]);
     ("D", [inr [doc "d1"]])]
    [inr [doc "r1"]; inl (mkHttpError "500 backendError")] [] [].

(** Three files owned by alice; granting ownership of B is refused. *)
Definition abc : FakeDrive :=
  mkFake alice [] [inr [doc "A"; doc "B"; doc "C"]] ["B"] [].

(** Nothing is owned by alice. *)
Definition blank : FakeDrive := mkFake alice [] [] [] [].

(** * load_credentials

    The OAuth libraries and the file system are an interface ([Auth]) over an
    abstract environment [E]; [F] is the type of [InstalledAppFlow] objects.
    Each operation answers with a value or with the exception it raises;
    [load_credentials] catches none of them. *)

(** The attributes of a [Credentials] object that the code reads. *)
Record Credentials := mkCredentials {
  expired : bool;
  refresh_token : option string;
  valid : bool;
  to_json : string
}.

Definition SCOPES : list string := ["https://www.googleapis.com/auth/drive"].

(** Result of code that may raise any exception (named by a string). *)
Inductive attempt (A : Type) :=
| Returned (a : A)
| Raised (exception : string).
Arguments Returned {A} a.
Arguments Raised {A} exception.

Inductive auth_event :=
| ReadToken (path : string)
| Refresh
| LoadClientSecrets (path : string)
| RunLocalServer
| WriteToken (path : string) (content : string).

#[global] Instance auth_event_eq_dec : EqDecision auth_event.
Proof. solve_decision. Defined.

Class Auth (E F : Type) := {
  (** [os.path.exists] *)
  path_exists : E → string → bool;
  (** [Credentials.from_authorized_user_file] *)
  from_authorized_user_file : E → string → list string → attempt Credentials;
  (** [creds.refresh(Request())]: the credentials after the refresh. *)
  refresh : E → Credentials → E * attempt Credentials;
  (** [InstalledAppFlow.from_client_secrets_file] *)
  from_client_secrets_file : E → string → list string → attempt F;
  (** [flow.run_local_server(port=0)] *)
  run_local_server : E → F → E * attempt Credentials;
  (** [open(path, "w", encoding="utf-8")] and [write] *)
  write_text : E → string → string → E * attempt unit
}.

(** Code that runs in the environment: its trace, the environment after
    it, and what it returned or raised. *)
Definition act (E A : Type) : Type := E → list auth_event * E * attempt A.

Definition act_ret {E A} (a : A) : act E A := λ env, ([], env, Returned a).

Definition act_bind {E A B} (m : act E A) (k : A → act E B) : act E B :=
  λ env,
    match m env with
    | (t, env, Returned a) => let '(t', env, r) := k a env in (t ++ t', env, r)
    | (t, env, Raised exception) => (t, env, Raised exception)
    end.

Notation "x <~ m ;; k" := (act_bind m (λ x, k))
  (at level 100, m at next level, right associativity).

(** The lines [flow = ...] to [token_file.write(creds.to_json())]. *)
Definition authorize `{Auth E F} (client_secret_path token_path : string)
  : act E Credentials :=
  flow <~ (λ env, ([LoadClientSecrets client_secret_path], env,
                   from_client_secrets_file env client_secret_path SCOPES)) ;;
  creds <~ (λ env, let '(env, r) := run_local_server env flow in
                   ([RunLocalServer], env, r)) ;;
  _ <~ (λ env, let '(env, r) := write_text env token_path (to_json creds) in
               ([WriteToken token_path (to_json creds)], env, r)) ;;
  act_ret creds.

Definition load_credentials `{Auth E F} (client_secret_path token_path : string)
  : act E Credentials :=
  creds <~ (λ env,
              if path_exists env token_path then
                ([ReadToken token_path], env,
                 match from_authorized_user_file env token_path SCOPES with
                 | Returned creds => Returned (Some creds)
                 | Raised exception => Raised exception
                 end)
              else ([], env, Returned None)) ;;
  creds <~ match creds with
           | Some c =>
             if expired c && truthy (refresh_token c) then
               λ env, let '(env, r) := refresh env c in
                      ([Refresh], env,
                       match r with
                       | Returned c => Returned (Some c)
                       | Raised exception => Raised exception
                       end)
             else act_ret (Some c)
           | None => act_ret None
           end ;;
  match creds with
  | Some c => if valid c then act_ret c
              else authorize client_secret_path token_path
  | None => authorize client_secret_path token_path
  end.

(** ** More specification vocabulary *)

(** The IDs of [ids] that are not in [seen], each at its first
    occurrence. *)
Fixpoint first_seen (seen : gset string) (ids : list string) : list string :=
  match ids with
  | [] => []
  | i :: ids =>
    if decide (i ∈ seen) then first_seen seen ids
    else i :: first_seen (seen ∪ {[i]}) ids
  end.

(** The queries of the requests for a first page in a trace, in order. *)
Definition first_page_queries (t : list event) : list string :=
  omap (λ ev, match ev with
              | FilesList (mkListRequest query _ None) => Some query
              | _ => None
              end) t.

(** The request the unscoped listing makes with a given token. *)
Definition owned_request (source_email : string) (page_token : option string)
  : event :=
  FilesList (mkListRequest (owned_query source_email) 1000 page_token).

(** [args] with [dry_run] replaced. *)
Definition with_dry_run (args : Args) (flag : bool) : Args :=
  mkArgs (source_email args) (target_email args) (folder_ids args) flag.

(** ** A test double for the OAuth environment

    The token file's content is looked up in a table of known credentials
    (anything else is rejected as malformed); the answers to a refresh and
    to the browser flow are fixed; files can be made read-only. *)
Record FakeEnv := mkFakeEnv {
  env_files : list (string * string);
  env_known : list (string * Credentials);
  env_refreshed : attempt Credentials;
  env_consented : attempt Credentials;
  env_read_only : bool
}.

Fixpoint assoc {A} (key : string) (table : list (string * A)) : option A :=
  match table with
  | [] => None
  | (k, v) :: table => if decide (key = k) then Some v else assoc key table
  end.

#[global] Instance fake_auth : Auth FakeEnv string := {
  path_exists env path :=
    match assoc path (env_files env) with Some _ => true | None => false end;
  from_authorized_user_file env path _ :=
    match assoc path (env_files env) with
    | None => Raised "FileNotFoundError"
    | Some content =>
      match assoc content (env_known env) with
      | Some creds => Returned creds
      | None => Raised "ValueError"
      end
    end;
  refresh env _ := (env, env_refreshed env);
  from_client_secrets_file env path _ :=
    match assoc path (env_files env) with
    | None => Raised "FileNotFoundError"
    | Some content => Returned content
    end;
  run_local_server env _ := (env, env_consented env);
  write_text env path content :=
    if env_read_only env then (env, Raised "PermissionError")
    else (mkFakeEnv ((path, content) :: env_files env) (env_known env)
            (env_refreshed env) (env_consented env) (env_read_only env),
          Returned tt)
}.

Definition good_creds : Credentials := mkCredentials false (Some "rt") true "good".
Definition stale_creds : Credentials := mkCredentials true (Some "rt") false "stale".
Definition new_creds : Credentials := mkCredentials false (Some "rt2") true "new".

(** A stale token on disk; the refresh is refused; the user then consents. *)
Definition revoked_env : FakeEnv :=
  mkFakeEnv [("token.json", "stale"); ("client_secret.json", "secret")]
            [("good", good_creds); ("stale", stale_creds)]
            (Raised "RefreshError") (Returned new_creds) false.

(** A stale token on disk whose refresh succeeds. *)
Definition stale_env : FakeEnv :=
  mkFakeEnv [("token.json", "stale"); ("client_secret.json", "secret")]
            [("good", good_creds); ("stale", stale_creds)]
            (Returned good_creds) (Returned new_creds) false.

(** No token on disk yet. *)
Definition first_run_env : FakeEnv :=
  mkFakeEnv [("client_secret.json", "secret")]
            [("good", good_creds); ("stale", stale_creds)]
            (Raised "RefreshError") (Returned new_creds) false.

(** * Facts about the embedding *)

Lemma string_length_app (s1 s2 : string) :
  String.length (s1 +:+ s2) = String.length s1 + String.length s2.
Proof.
  induction s1 as [|c s1 IH]; [done|].
  change (S (String.length (s1 +:+ s2)) = S (String.length s1 + String.length s2)).
  by rewrite IH.
Qed.

Lemma string_app_inj_r (s s1 s2 : string) : s1 +:+ s = s2 +:+ s → s1 = s2.
Proof.
  revert s2. induction s1 as [|c s1 IH]; intros [|c2 s2] Heq.
  - done.
  - apply (f_equal String.length) in Heq.
    rewrite !string_length_app in Heq. simpl in Heq. lia.
  - apply (f_equal String.length) in Heq.
    rewrite !string_length_app in Heq. simpl in Heq. lia.
  - change (String c (s1 +:+ s) = String c2 (s2 +:+ s)) in Heq.
    injection Heq as -> Heq. f_equal. by apply IH.
Qed.

Lemma folder_query_inj (source_email f g : string) :
  folder_query source_email f = folder_query source_email g → f = g.
Proof.
  unfold folder_query. intros Heq.
  apply (inj (String.app "'")) in Heq.
  by apply string_app_inj_r in Heq.
Qed.

Lemma foldl_visit_item (items : list Item) (queue : list string) (files : list Item) :
  foldl visit_item (queue, files) items
  = (queue ++ folder_ids_of items, files ++ items).
Proof.
  revert queue files. induction items as [|item items IH]; intros queue files.
  - by rewrite !app_nil_r.
  - simpl. unfold folder_ids_of. rewrite filter_cons.
    destruct (is_folder item) eqn:Hf.
    + rewrite decide_True by done. rewrite IH. unfold folder_ids_of.
      simpl. by rewrite <- !app_assoc.
    + rewrite decide_False by done. rewrite IH. unfold folder_ids_of.
      by rewrite <- !app_assoc.
Qed.

Section Listing.
Context `{Drive W} (service : W).

Lemma listing_mono (n m : nat) (query : string) (size : nat)
    (page_token : option string) :
  n ≤ m → listing n service query size page_token ≠ OutOfFuel →
  listing m service query size page_token
  = listing n service query size page_token.
Proof.
  revert m page_token. induction n as [|n IH]; intros m page_token Hle Hr.
  - done.
  - destruct m as [|m]; [lia|]. simpl in *.
    destruct (files_list _ _) as [error|response]; [done|].
    destruct (negb _); [done|].
    rewrite (IH m); [done | lia |].
    intros Heq. by rewrite Heq in Hr.
Qed.

Lemma listing_det (n m : nat) (query : string) (size : nat)
    (page_token : option string) (items1 items2 : list Item) :
  listing n service query size page_token = Done items1 →
  listing m service query size page_token = Done items2 →
  items1 = items2.
Proof.
  intros H1 H2. destruct (decide (n ≤ m)).
  - rewrite (listing_mono n m) in H2 by (done || by rewrite H1). congruence.
  - rewrite (listing_mono m n) in H1 by (lia || by rewrite H2). congruence.
Qed.

(** The inner loop of [list_owned_in_folders] extends the queue and the
    result by what the query lists. *)
Lemma folder_pages_loop_listing (fuel : nat) (query : string)
    (page_token : option string) (queue : list string) (files : list Item) :
  (folder_pages_loop fuel service query page_token (queue, files)).2
  = match listing fuel service query 200 page_token with
    | Done items => Done (queue ++ folder_ids_of items, files ++ items)
    | Raise error => Raise error
    | OutOfFuel => OutOfFuel
    end.
Proof.
  revert page_token queue files.
  induction fuel as [|fuel IH]; intros page_token queue files; simpl; [done|].
  destruct (files_list _ _) as [error|response]; [done|].
  rewrite foldl_visit_item.
  destruct (negb _); [done|].
  specialize (IH (nextPageToken response)
                 (queue ++ folder_ids_of (response_files response))
                 (files ++ response_files response)).
  destruct (folder_pages_loop _ _ _ _ _) as [t r]. simpl in *. rewrite IH.
  destruct (listing _ _ _ _ _); [|done..].
  unfold folder_ids_of. by rewrite filter_app, fmap_app, !app_assoc.
Qed.

Lemma list_owned_files_loop_listing (fuel : nat) (query : string)
    (page_token : option string) (files : list Item) :
  (list_owned_files_loop fuel service query page_token files).2
  = match listing fuel service query 1000 page_token with
    | Done items => Done (files ++ items)
    | Raise error => Raise error
    | OutOfFuel => OutOfFuel
    end.
Proof.
  revert page_token files.
  induction fuel as [|fuel IH]; intros page_token files; simpl; [done|].
  destruct (files_list _ _) as [error|response]; [done|].
  destruct (negb _); [done|].
  specialize (IH (nextPageToken response) (files ++ response_files response)).
  destruct (list_owned_files_loop _ _ _ _ _) as [t r]. simpl in *. rewrite IH.
  destruct (listing _ _ _ _ _); [|done..].
  by rewrite app_assoc.
Qed.

End Listing.

(** ** Fuel and traces of the loops *)

Lemma expansions_nil (source_email f : string) : expansions source_email f [] = 0.
Proof. done. Qed.

Lemma expansions_app (source_email f : string) (t1 t2 : list event) :
  expansions source_email f (t1 ++ t2)
  = expansions source_email f t1 + expansions source_email f t2.
Proof. unfold expansions. by rewrite filter_app, length_app. Qed.

Lemma expansions_cons_other (source_email f : string) (ev : event) (t : list event) :
  ev ≠ FilesList (mkListRequest (folder_query source_email f) 200 None) →
  expansions source_email f (ev :: t) = expansions source_email f t.
Proof. intros Hne. unfold expansions. by rewrite filter_cons_False. Qed.

Lemma expansions_cons_le (source_email f : string) (ev : event) (t : list event) :
  expansions source_email f (ev :: t) ≤ S (expansions source_email f t).
Proof.
  unfold expansions. rewrite filter_cons. case_decide; simpl; lia.
Qed.

Lemma truthy_not_None (page_token : option string) :
  truthy page_token = true → page_token ≠ None.
Proof. by destruct page_token. Qed.

#[global] Instance FilesList_inj : Inj (=) (=) FilesList.
Proof. by intros ?? [= ->]. Qed.

Section Loops.
Context `{Drive W} (service : W).

Lemma folder_pages_loop_mono (n m : nat) (query : string)
    (page_token : option string) (st : list string * list Item) :
  n ≤ m → (folder_pages_loop n service query page_token st).2 ≠ OutOfFuel →
  folder_pages_loop m service query page_token st
  = folder_pages_loop n service query page_token st.
Proof.
  revert m page_token st. induction n as [|n IH]; intros m page_token st Hle Hr.
  - done.
  - destruct m as [|m]; [lia|]. simpl in *.
    destruct (files_list _ _) as [error|response]; [done|].
    destruct (negb _); [done|].
    rewrite (IH m); [done | lia |].
    destruct (folder_pages_loop n _ _ _ _). done.
Qed.

Lemma list_owned_files_loop_mono (n m : nat) (query : string)
    (page_token : option string) (files : list Item) :
  n ≤ m → (list_owned_files_loop n service query page_token files).2 ≠ OutOfFuel →
  list_owned_files_loop m service query page_token files
  = list_owned_files_loop n service query page_token files.
Proof.
  revert m page_token files.
  induction n as [|n IH]; intros m page_token files Hle Hr.
  - done.
  - destruct m as [|m]; [lia|]. simpl in *.
    destruct (files_list _ _) as [error|response]; [done|].
    destruct (negb _); [done|].
    rewrite (IH m); [done | lia |].
    destruct (list_owned_files_loop n _ _ _ _). done.
Qed.

Lemma folders_loop_mono (n m : nat) (source_email : string) (seen : gset string)
    (queue : list string) (files : list Item) :
  n ≤ m → (folders_loop n service source_email seen queue files).2 ≠ OutOfFuel →
  folders_loop m service source_email seen queue files
  = folders_loop n service source_email seen queue files.
Proof.
  revert m seen queue files.
  induction n as [|n IH]; intros m seen queue files Hle Hr.
  - destruct queue; [by destruct m | done].
  - destruct queue as [|f queue]; [by destruct m|].
    destruct m as [|m]; [lia|]. simpl in *.
    case_decide.
    + apply IH; [lia | done].
    + destruct (folder_pages_loop n _ _ _ _) as [t1 r1] eqn:Hp.
      assert (r1 ≠ OutOfFuel) as Hr1 by (by destruct r1 as [[??]| |]).
      rewrite (folder_pages_loop_mono n m) by (lia || by rewrite Hp).
      rewrite Hp. destruct r1 as [[queue1 files1]| |]; [|done..].
      rewrite (IH m); [done | lia |].
      by destruct (folders_loop n _ _ _ _ _).
Qed.

(** Every event of a listing loop is a [files().list] call. *)
Lemma folder_pages_loop_calls (fuel : nat) (query : string)
    (page_token : option string) (st : list string * list Item) :
  Forall (λ ev, is_list_call ev = true)
         (folder_pages_loop fuel service query page_token st).1.
Proof.
  revert page_token st. induction fuel as [|fuel IH]; intros page_token st; simpl.
  - constructor.
  - destruct (files_list _ _) as [error|response]; [by repeat constructor|].
    destruct (negb _); [by repeat constructor|].
    specialize (IH (nextPageToken response)
                  (foldl visit_item st (response_files response))).
    destruct (folder_pages_loop _ _ _ _ _). by constructor.
Qed.

Lemma list_owned_files_loop_calls (fuel : nat) (query : string)
    (page_token : option string) (files : list Item) :
  Forall (λ ev, is_list_call ev = true)
         (list_owned_files_loop fuel service query page_token files).1.
Proof.
  revert page_token files.
  induction fuel as [|fuel IH]; intros page_token files; simpl.
  - constructor.
  - destruct (files_list _ _) as [error|response]; [by repeat constructor|].
    destruct (negb _); [by repeat constructor|].
    specialize (IH (nextPageToken response) (files ++ response_files response)).
    destruct (list_owned_files_loop _ _ _ _ _). by constructor.
Qed.

Lemma folders_loop_calls (fuel : nat) (source_email : string) (seen : gset string)
    (queue : list string) (files : list Item) :
  Forall (λ ev, is_list_call ev = true)
         (folders_loop fuel service source_email seen queue files).1.
Proof.
  revert seen queue files.
  induction fuel as [|fuel IH]; intros seen [|f queue] files; simpl;
    try by constructor.
  case_decide; [apply IH|].
  pose proof (folder_pages_loop_calls fuel (folder_query source_email f) None
                (queue, files)) as Hc.
  destruct (folder_pages_loop _ _ _ _ _) as [t1 [[queue1 files1]| |]]; try done.
  specialize (IH (seen ∪ {[f]}) queue1 files1).
  destruct (folders_loop _ _ _ _ _ _). simpl in *. by apply Forall_app.
Qed.

(** A page loop that does not run out of fuel starts with the request for
    the page it was asked for. *)
Lemma folder_pages_loop_first (fuel : nat) (query : string)
    (page_token : option string) (st : list string * list Item) :
  (folder_pages_loop fuel service query page_token st).2 ≠ OutOfFuel →
  FilesList (mkListRequest query 200 page_token)
  ∈ (folder_pages_loop fuel service query page_token st).1.
Proof.
  destruct fuel as [|fuel]; simpl; [done|]. intros _.
  destruct (files_list _ _) as [error|response]; [set_solver|].
  destruct (negb _); [set_solver|].
  destruct (folder_pages_loop _ _ _ _ _). set_solver.
Qed.

(** A request that fails ends the page loop with its error. *)
Lemma folder_pages_loop_failure (fuel : nat) (query : string)
    (page_token : option string) (st : list string * list Item)
    (req : ListRequest) (error : HttpError) :
  FilesList req ∈ (folder_pages_loop fuel service query page_token st).1 →
  files_list service req = inl error →
  (folder_pages_loop fuel service query page_token st).2 = Raise error.
Proof.
  revert page_token st. induction fuel as [|fuel IH]; intros page_token st; simpl.
  - by intros ?%elem_of_nil.
  - destruct (files_list service (mkListRequest _ _ _)) as [e|response] eqn:Hcall.
    + intros ->%list_elem_of_singleton%(inj FilesList) Hf. simpl. congruence.
    + destruct (negb _).
      * intros ->%list_elem_of_singleton%(inj FilesList) Hf. congruence.
      * specialize (IH (nextPageToken response)
                      (foldl visit_item st (response_files response))).
        destruct (folder_pages_loop _ _ _ _ _) as [t r]. simpl in *.
        intros [->%(inj FilesList)|Hin]%elem_of_cons Hf; [congruence | auto].
Qed.

Lemma list_owned_files_loop_failure (fuel : nat) (query : string)
    (page_token : option string) (files : list Item)
    (req : ListRequest) (error : HttpError) :
  FilesList req ∈ (list_owned_files_loop fuel service query page_token files).1 →
  files_list service req = inl error →
  (list_owned_files_loop fuel service query page_token files).2 = Raise error.
Proof.
  revert page_token files.
  induction fuel as [|fuel IH]; intros page_token files; simpl.
  - by intros ?%elem_of_nil.
  - destruct (files_list service (mkListRequest _ _ _)) as [e|response] eqn:Hcall.
    + intros ->%list_elem_of_singleton%(inj FilesList) Hf. simpl. congruence.
    + destruct (negb _).
      * intros ->%list_elem_of_singleton%(inj FilesList) Hf. congruence.
      * specialize (IH (nextPageToken response)
                      (files ++ response_files response)).
        destruct (list_owned_files_loop _ _ _ _ _) as [t r]. simpl in *.
        intros [->%(inj FilesList)|Hin]%elem_of_cons Hf; [congruence | auto].
Qed.

Lemma folders_loop_failure (fuel : nat) (source_email : string)
    (seen : gset string) (queue : list string) (files : list Item)
    (req : ListRequest) (error : HttpError) :
  FilesList req ∈ (folders_loop fuel service source_email seen queue files).1 →
  files_list service req = inl error →
  (folders_loop fuel service source_email seen queue files).2 = Raise error.
Proof.
  revert seen queue files.
  induction fuel as [|fuel IH]; intros seen [|f queue] files; simpl;
    try by intros ?%elem_of_nil.
  case_decide; [apply IH|].
  pose proof (folder_pages_loop_failure fuel (folder_query source_email f) None
                (queue, files) req error) as Hp.
  destruct (folder_pages_loop _ _ _ _ _) as [t1 [[queue1 files1]| |]];
    simpl in *; [|(intros Hin Hf; specialize (Hp Hin Hf); by simplify_eq)..].
  specialize (IH (seen ∪ {[f]}) queue1 files1).
  destruct (folders_loop _ _ _ _ _ _) as [t2 r2]. simpl in *.
  intros [Hin|Hin]%elem_of_app Hf; [|by auto].
  by specialize (Hp Hin Hf).
Qed.

End Loops.

(** ** The traversal *)

Section Traversal.
Context `{Drive W} (service : W) (source_email : string).

Abbreviation children := (children service source_email).
Abbreviation subfolder := (subfolder service source_email).
Abbreviation reach := (reach service source_email).
Abbreviation first_page f :=
  (FilesList (mkListRequest (folder_query source_email f) 200 None)).

Lemma children_det (f : string) (items1 items2 : list Item) :
  children f items1 → children f items2 → items1 = items2.
Proof. intros [n Hn] [m Hm]. eapply listing_det; eauto. Qed.

Lemma reach_root (roots : list string) (r : string) : r ∈ roots → reach roots r.
Proof. intros Hr. exists r. split; [done | apply rtc_refl]. Qed.

Lemma reach_step (roots : list string) (f g : string) :
  reach roots f → subfolder f g → reach roots g.
Proof. intros (r & Hr & Hrf) Hfg. exists r. split; [done | by eapply rtc_r]. Qed.

Lemma reach_mono (roots1 roots2 : list string) (f : string) :
  roots1 ⊆ roots2 → reach roots1 f → reach roots2 f.
Proof. intros Hsub (r & Hr & Hrf). exists r. split; [by apply Hsub | done]. Qed.

(** Reachability from the queue after a folder has been expanded. *)
Lemma reach_expand (f : string) (queue : list string) (items : list Item)
    (g : string) :
  children f items → reach (queue ++ folder_ids_of items) g →
  reach (f :: queue) g.
Proof.
  intros Hf (r & [Hr|Hr]%elem_of_app & Hrg).
  - exists r. split; [set_solver | done].
  - exists f. split; [set_solver|].
    eapply rtc_l; [|exact Hrg]. by exists items.
Qed.

(** What a completed run of the outer loop has done: the folders it
    expanded ([order], in order), what each of them listed ([chunks]), and
    how they relate to the state at the loop head. *)
Lemma folders_loop_done (fuel : nat) (seen : gset string) (queue : list string)
    (files : list Item) (t : list event) (result : list Item) :
  folders_loop fuel service source_email seen queue files = (t, Done result) →
  ∃ (order : list string) (chunks : list (list Item)),
    NoDup order ∧
    (∀ f, f ∈ order → f ∉ seen) ∧
    Forall2 children order chunks ∧
    result = files ++ concat chunks ∧
    (∀ f, f ∈ queue → f ∈ seen ∨ f ∈ order) ∧
    (∀ f g, f ∈ order → subfolder f g → g ∈ seen ∨ g ∈ order) ∧
    (∀ f, f ∈ order → reach queue f) ∧
    (∀ f, f ∈ order → first_page f ∈ t).
Proof.
  revert seen queue files t result.
  induction fuel as [|fuel IH]; intros seen [|f queue] files t result Hrun;
    simpl in Hrun; try done.
  - injection Hrun as <- <-. exists [], []. rewrite app_nil_r.
    split_and!; [apply NoDup_nil_2 | | apply Forall2_nil_2 | ..];
      try done; try by intros ? ?%elem_of_nil.
    by intros ? ? ?%elem_of_nil.
  - injection Hrun as <- <-. exists [], []. rewrite app_nil_r.
    split_and!; [apply NoDup_nil_2 | | apply Forall2_nil_2 | ..];
      try done; try by intros ? ?%elem_of_nil.
    by intros ? ? ?%elem_of_nil.
  - case_decide as Hseen.
    + destruct (IH _ _ _ _ _ Hrun)
        as (order & chunks & Hnd & Hfresh & Hch & Hres & Hq & Hcl & Hre & Htr).
      exists order, chunks. split_and!; try done.
      * intros g [->|Hg]%elem_of_cons; [by left | by apply Hq].
      * intros g Hg. eapply reach_mono; [|by apply Hre]. set_solver.
    + pose proof (folder_pages_loop_listing service fuel
                    (folder_query source_email f) None queue files) as HL.
      pose proof (folder_pages_loop_first service fuel
                    (folder_query source_email f) None (queue, files)) as HF.
      destruct (folder_pages_loop _ _ _ _ _) as [t1 [[queue1 files1]| |]];
        simpl in *; try done.
      destruct (listing _ _ _ _ _) as [items| |] eqn:Hlist; try done.
      injection HL as -> ->.
      destruct (folders_loop _ _ _ _ _ _) as [t2 r2] eqn:Hrest.
      injection Hrun as <- ->.
      destruct (IH _ _ _ _ _ Hrest)
        as (order & chunks & Hnd & Hfresh & Hch & Hres & Hq & Hcl & Hre & Htr).
      assert (children f items) as Hfi by (by exists fuel).
      exists (f :: order), (items :: chunks). split_and!.
      * constructor; [|done]. intros Hin. apply Hfresh in Hin. set_solver.
      * intros g [->|Hg]%elem_of_cons; [done|].
        apply Hfresh in Hg. set_solver.
      * by constructor.
      * rewrite Hres. simpl. by rewrite app_assoc.
      * intros g [->|Hg]%elem_of_cons; [right; set_solver|].
        destruct (Hq g) as [Hs|Ho]; [set_solver | | right; set_solver].
        apply elem_of_union in Hs as [Hs|Hs]; [by left | right; set_solver].
      * intros g h [->|Hg]%elem_of_cons Hgh.
        -- destruct Hgh as (items' & Hch' & Hh).
           rewrite (children_det _ _ _ Hch' Hfi) in Hh.
           destruct (Hq h) as [Hs|Ho]; [set_solver | | right; set_solver].
           apply elem_of_union in Hs as [Hs|Hs]; [by left | right; set_solver].
        -- destruct (Hcl g h Hg Hgh) as [Hs|Ho]; [|right; set_solver].
           apply elem_of_union in Hs as [Hs|Hs]; [by left | right; set_solver].
      * intros g [->|Hg]%elem_of_cons; [apply reach_root; set_solver|].
        eapply reach_expand; [done | by apply Hre].
      * intros g [->|Hg]%elem_of_cons; [apply elem_of_app; left; by apply HF|].
        apply elem_of_app. right. by apply Htr.
Qed.

(** A completed scoped listing expanded exactly the reachable folders,
    each once, and returned what they listed, in that order. *)
Lemma list_owned_in_folders_done (fuel : nat) (roots : list string)
    (t : list event) (result : list Item) :
  list_owned_in_folders fuel service source_email roots = (t, Done result) →
  ∃ (order : list string) (chunks : list (list Item)),
    NoDup order ∧
    (∀ f, f ∈ order ↔ reach roots f) ∧
    Forall2 children order chunks ∧
    result = concat chunks ∧
    (∀ f, f ∈ order → first_page f ∈ t).
Proof.
  intros Hrun. apply folders_loop_done in Hrun
    as (order & chunks & Hnd & Hfresh & Hch & Hres & Hq & Hcl & Hre & Htr).
  exists order, chunks. split_and!; try done.
  intros f. split; [apply Hre|].
  intros (r & Hr & Hrf). revert f Hrf. apply (rtc_ind_r (λ f, f ∈ order)).
  - destruct (Hq r Hr) as [Hs|Ho]; [set_solver | done].
  - intros g h _ Hgh IHr.
    destruct (Hcl g h IHr Hgh) as [Hs|Ho]; [set_solver | done].
Qed.

End Traversal.

Section Termination.
Context `{Drive W} (service : W) (source_email : string).

Abbreviation subfolder := (subfolder service source_email).

(** Termination of the outer loop inside a finite set of folders [R] that is
    closed under sub-folders and in which every pagination ends.  The
    induction is on the number of folders of the universe not yet seen, then
    on the queue. *)
Lemma folders_loop_terminates (R : string → Prop) (universe : gset string) :
  (∀ f, R f → f ∈ universe) →
  (∀ f g, R f → subfolder f g → R g) →
  (∀ f, R f → ∃ n, listing n service (folder_query source_email f) 200 None
                   ≠ OutOfFuel) →
  ∀ (k : nat) (seen : gset string), size (universe ∖ seen) < k →
  ∀ (queue : list string) (files : list Item), (∀ f, f ∈ queue → R f) →
  ∃ N, (folders_loop N service source_email seen queue files).2 ≠ OutOfFuel
       ∧ ∀ error,
           (folders_loop N service source_email seen queue files).2 = Raise error →
           ∃ f n, R f ∧ listing n service (folder_query source_email f) 200 None
                        = Raise error.
Proof.
  intros Hfin Hclosed Hpages. induction k as [|k IHk]; intros seen Hsize; [lia|].
  induction queue as [|f queue IHq]; intros files HR.
  - exists 0. by split.
  - destruct (IHq files) as (N1 & Hne1 & Herr1); [set_solver|].
    destruct (decide (f ∈ seen)) as [Hseen|Hseen].
    { exists (S N1). simpl. by rewrite decide_True. }
    assert (R f) as HRf by set_solver.
    destruct (Hpages f HRf) as [n Hn].
    pose proof (folder_pages_loop_listing service n
                  (folder_query source_email f) None queue files) as HL.
    destruct (listing n service _ 200 None) as [items| |] eqn:Hlist; [| |done].
    + assert (size (universe ∖ (seen ∪ {[f]})) < k) as Hsize'.
      { assert (universe ∖ (seen ∪ {[f]}) ⊂ universe ∖ seen) as Hsub.
        { split; [set_solver|].
          intros Hsub. assert (f ∈ universe ∖ seen) as Hin by set_solver.
          apply Hsub in Hin. set_solver. }
        apply subset_size in Hsub. lia. }
      destruct (IHk _ Hsize' (queue ++ folder_ids_of items) (files ++ items))
        as (N2 & Hne2 & Herr2).
      { intros g [Hg|Hg]%elem_of_app; [set_solver|].
        apply (Hclosed f g HRf). exists items. split; [by exists n | done]. }
      exists (S (n `max` N2)). simpl. rewrite decide_False by done.
      rewrite (folder_pages_loop_mono service n) by (lia || by rewrite HL).
      destruct (folder_pages_loop n _ _ _ _) as [t1 r1]. simpl in HL. subst r1.
      rewrite (folders_loop_mono service N2) by (lia || done).
      destruct (folders_loop N2 _ _ _ _ _) as [t2 r2]. by split.
    + exists (S n). simpl. rewrite decide_False by done.
      destruct (folder_pages_loop n _ _ _ _) as [t1 r1]. simpl in HL. subst r1.
      simpl. split; [done|]. intros error [= <-]. by exists f, n.
Qed.

Lemma list_owned_in_folders_terminates (roots : list string) :
  finite_reach service source_email roots →
  (∀ f, reach service source_email roots f →
        ∃ n, listing n service (folder_query source_email f) 200 None ≠ OutOfFuel) →
  ∃ N, (list_owned_in_folders N service source_email roots).2 ≠ OutOfFuel
       ∧ ∀ error,
           (list_owned_in_folders N service source_email roots).2 = Raise error →
           ∃ f n, reach service source_email roots f
                  ∧ listing n service (folder_query source_email f) 200 None
                    = Raise error.
Proof.
  intros [universe Hfin] Hpages.
  apply (folders_loop_terminates (reach service source_email roots)
           (list_to_set universe)) with (k := S (size (list_to_set universe ∖ ∅ : gset string))).
  - intros f Hf. apply elem_of_list_to_set. by apply Hfin.
  - intros f g. apply reach_step.
  - done.
  - lia.
  - intros f. apply reach_root.
Qed.

(** The first-page request of a folder occurs at most once in the trace of
    a page loop, and not at all in a loop for another folder or for a later
    page. *)
Lemma folder_pages_loop_expansions (fuel : nat) (f g : string)
    (page_token : option string) (st : list string * list Item) :
  let t := (folder_pages_loop fuel service (folder_query source_email g)
              page_token st).1 in
  expansions source_email f t ≤ 1
  ∧ (g ≠ f ∨ page_token ≠ None → expansions source_email f t = 0).
Proof.
  revert page_token st. induction fuel as [|fuel IH]; intros page_token st; simpl.
  - rewrite expansions_nil. split; [lia | done].
  - assert (g ≠ f ∨ page_token ≠ None →
            FilesList (mkListRequest (folder_query source_email g) 200 page_token)
            ≠ FilesList (mkListRequest (folder_query source_email f) 200 None))
      as Hhead.
    { intros [Hne|Hne] Heq%(inj FilesList).
      - apply (f_equal q) in Heq. cbn [q] in Heq.
        by apply folder_query_inj in Heq.
      - by apply (f_equal pageToken) in Heq. }
    destruct (files_list _ _) as [error|response]; simpl.
    { split; [apply expansions_cons_le|].
      intros Hne. by rewrite expansions_cons_other by auto. }
    destruct (negb (truthy _)) eqn:Htruthy; simpl.
    { split; [apply expansions_cons_le|].
      intros Hne. by rewrite expansions_cons_other by auto. }
    apply negb_false_iff, truthy_not_None in Htruthy.
    destruct (IH (nextPageToken response)
                 (foldl visit_item st (response_files response))) as [_ IH0].
    destruct (folder_pages_loop _ _ _ _ _) as [t r]. simpl in *.
    specialize (IH0 (or_intror Htruthy)). split.
    + etrans; [apply expansions_cons_le|]. lia.
    + intros Hne. rewrite expansions_cons_other by auto. done.
Qed.

(** No folder is expanded twice by the outer loop, and no folder already in
    [seen] is expanded at all; this holds for every prefix of a run. *)
Lemma folders_loop_expansions (fuel : nat) (f : string) (seen : gset string)
    (queue : list string) (files : list Item) :
  let t := (folders_loop fuel service source_email seen queue files).1 in
  expansions source_email f t ≤ 1 ∧ (f ∈ seen → expansions source_email f t = 0).
Proof.
  revert seen queue files.
  induction fuel as [|fuel IH]; intros seen [|g queue] files; simpl;
    try (rewrite expansions_nil; split; [lia | done]).
  case_decide as Hseen; [apply IH|].
  destruct (folder_pages_loop_expansions fuel f g None (queue, files))
    as [Hle1 Hzero1].
  destruct (folder_pages_loop _ _ _ _ _) as [t1 [[queue1 files1]| |]];
    simpl in *; [| split; [done | intros Hf; apply Hzero1; left; set_solver]..].
  destruct (IH (seen ∪ {[g]}) queue1 files1) as [Hle2 Hzero2].
  destruct (folders_loop _ _ _ _ _ _) as [t2 r2]. simpl in *.
  rewrite expansions_app. destruct (decide (g = f)) as [->|Hne].
  - rewrite Hzero2 by set_solver. split; [lia | done].
  - rewrite Hzero1 by auto. split; [done|].
    intros Hf. apply Hzero2. set_solver.
Qed.

End Termination.

(** ** The test double answers as its tables say *)

Section Fake.

Lemma fake_token_length (k : nat) : String.length (fake_token k) = k.
Proof.
  induction k as [|k IH]; [done|].
  change (fake_token (S k)) with ("p" +:+ fake_token k).
  rewrite string_length_app, IH. done.
Qed.

Lemma fake_token_truthy (k : nat) : truthy (Some (fake_token (S k))) = true.
Proof. done. Qed.

Lemma fake_lookup_folder (owner : string)
    (tree : list (string * list (HttpError + list Item))) (f : string) :
  default [] (fake_lookup owner tree (folder_query owner f))
  = fake_folder_pages tree f.
Proof.
  induction tree as [|[g pages] tree IH]; simpl; [done|].
  destruct (decide (f = g)) as [->|Hne].
  - by rewrite decide_True.
  - rewrite decide_False; [done|]. by intros ?%folder_query_inj.
Qed.

Lemma fake_pages_folder (d : FakeDrive) (f : string) :
  fake_flat d = [] →
  fake_pages d (folder_query (fake_owner d) f) = fake_folder_pages (fake_tree d) f.
Proof.
  intros Hflat. rewrite <- (fake_lookup_folder (fake_owner d)).
  unfold fake_pages. destruct (fake_lookup _ _ _); [done|].
  rewrite Hflat. by case_decide.
Qed.

(** Following the tokens from page [k] on collects the remaining pages. *)
Lemma fake_listing_from (d : FakeDrive) (query : string) (size n k : nat) :
  forallb page_ok (fake_pages d query) = true →
  S n + k = length (fake_pages d query) →
  listing (S n) d query size (match k with 0 => None | _ => Some (fake_token k) end)
  = Done (concat (page_items <$> drop k (fake_pages d query))).
Proof.
  intros Hok. revert k. induction n as [|n IH]; intros k Hlen.
  - destruct (lookup_lt_is_Some_2 (fake_pages d query) k) as [page Hpage]; [lia|].
    assert (page_ok page = true) as Hpok.
    { rewrite forallb_forall in Hok. apply Hok.
      apply list_elem_of_In. by eapply list_elem_of_lookup_2. }
    simpl. unfold fake_files_list. simpl.
    replace (fake_index (match k with 0 => None | _ => Some (fake_token k) end))
      with k by (destruct k; [done | unfold fake_index; by rewrite fake_token_length]).
    rewrite Hpage. destruct page as [error|items]; [done|]. simpl.
    rewrite decide_False by lia. simpl.
    rewrite (drop_S _ _ _ Hpage), drop_ge by lia. simpl. by rewrite app_nil_r.
  - destruct (lookup_lt_is_Some_2 (fake_pages d query) k) as [page Hpage]; [lia|].
    assert (page_ok page = true) as Hpok.
    { rewrite forallb_forall in Hok. apply Hok.
      apply list_elem_of_In. by eapply list_elem_of_lookup_2. }
    specialize (IH (S k) ltac:(lia)).
    remember (S n) as n' eqn:Hn'. simpl.
    unfold fake_files_list. cbn [q pageToken].
    replace (fake_index (match k with 0 => None | _ => Some (fake_token k) end))
      with k by (destruct k; [done | unfold fake_index; by rewrite fake_token_length]).
    rewrite Hpage. destruct page as [error|items]; [done|].
    cbn [nextPageToken response_files files default].
    rewrite decide_True by lia. rewrite fake_token_truthy. cbn [negb].
    rewrite IH. rewrite (drop_S _ _ _ Hpage). done.
Qed.

Lemma fake_listing (d : FakeDrive) (query : string) (size : nat) :
  forallb page_ok (fake_pages d query) = true →
  ∃ n, listing n d query size None
       = Done (concat (page_items <$> fake_pages d query)).
Proof.
  intros Hok. destruct (fake_pages d query) as [|page pages] eqn:Hpages.
  - exists 1. simpl. unfold fake_files_list. simpl. by rewrite Hpages.
  - exists (S (length pages)). rewrite <- Hpages.
    rewrite (fake_listing_from d query size (length pages) 0);
      [done | by rewrite Hpages | rewrite Hpages; simpl; lia].
Qed.

Lemma fake_folder_pages_ok (tree : list (string * list (HttpError + list Item)))
    (f : string) :
  forallb (λ entry, forallb page_ok entry.2) tree = true →
  forallb page_ok (fake_folder_pages tree f) = true.
Proof.
  induction tree as [|[g pages] tree IH]; simpl; [done|].
  intros [Hp Ht]%andb_true_iff. case_decide; auto.
Qed.

(** In a healthy drive every folder query is answered in full. *)
Lemma fake_children (d : FakeDrive) (f : string) :
  fake_healthy d = true → children d (fake_owner d) f (fake_items d f).
Proof.
  intros [Htree Hflat%bool_decide_eq_true]%andb_true_iff.
  unfold children, fake_items. rewrite <- fake_pages_folder by done.
  apply fake_listing.
  rewrite fake_pages_folder by done. by apply fake_folder_pages_ok.
Qed.

Lemma fake_subfolder (d : FakeDrive) (f g : string) :
  fake_healthy d = true → subfolder d (fake_owner d) f g →
  g ∈ folder_ids_of (fake_items d f).
Proof.
  intros Hd (items & Hch & Hg).
  by rewrite <- (children_det d (fake_owner d) f _ _ Hch (fake_children d f Hd)).
Qed.

Lemma fake_items_folders (d : FakeDrive) (f g : string) :
  g ∈ folder_ids_of (fake_items d f) → g ∈ fake_folders d.
Proof.
  unfold fake_items, fake_folders.
  induction (fake_tree d) as [|[h pages] tree IH]; simpl.
  - by intros ?%elem_of_nil.
  - case_decide; intros Hg; apply elem_of_app; [by left | right; auto].
Qed.

Lemma fake_finite_reach (d : FakeDrive) (roots : list string) :
  fake_healthy d = true → finite_reach d (fake_owner d) roots.
Proof.
  intros Hd. exists (roots ++ fake_folders d). intros f (r & Hr & Hrf).
  revert f Hrf. apply (rtc_ind_r (λ f, f ∈ roots ++ fake_folders d)).
  - apply elem_of_app. by left.
  - intros g h _ Hgh _. apply elem_of_app. right.
    eapply fake_items_folders, fake_subfolder; eauto.
Qed.

End Fake.

(** ** The transfer loop and [main] *)

Section Runner.
Context `{Drive W}.

Lemma list_selected_calls (fuel : nat) (args : Args) (service : W) :
  Forall (λ ev, is_list_call ev = true) (list_selected fuel args service).1.
Proof.
  unfold list_selected. destruct (truthy_list _).
  - apply folders_loop_calls.
  - apply list_owned_files_loop_calls.
Qed.

Lemma list_selected_failure (fuel : nat) (args : Args) (service : W)
    (req : ListRequest) (error : HttpError) :
  FilesList req ∈ (list_selected fuel args service).1 →
  files_list service req = inl error →
  (list_selected fuel args service).2 = Raise error.
Proof.
  unfold list_selected. destruct (truthy_list _).
  - apply folders_loop_failure.
  - apply list_owned_files_loop_failure.
Qed.

Lemma list_calls_no_grant (t : list event) :
  Forall (λ ev, is_list_call ev = true) t → Forall (λ ev, is_grant ev = false) t.
Proof. intros Ht. eapply Forall_impl; [done|]. by intros []. Qed.

Lemma transfer_loop_dry (args : Args) (service : W) (files : list Item) :
  dry_run args = true →
  transfer_loop args service files = (would_transfer_line <$> files, service).
Proof.
  intros Hdry. induction files as [|item files IH]; simpl; [done|].
  by rewrite Hdry, IH.
Qed.

Lemma transfer_loop_real (args : Args) (service : W) (files : list Item) :
  dry_run args = false →
  transfer_loop args service files
  = (transfer_events (target_email args) files
       (grant_all service (owner_permission (target_email args)) (id <$> files)).1,
     (grant_all service (owner_permission (target_email args)) (id <$> files)).2).
Proof.
  intros Hreal. revert service.
  induction files as [|item files IH]; intros service; simpl; [done|].
  rewrite Hreal. unfold transfer_file.
  destruct (permissions_create _ _ _) as [service1 raised].
  rewrite IH. by destruct (grant_all _ _ _).
Qed.

Lemma grant_all_length (service : W) (body : Permission) (ids : list string) :
  length (grant_all service body ids).1 = length ids.
Proof.
  revert service. induction ids as [|i ids IH]; intros service; simpl; [done|].
  destruct (permissions_create _ _ _) as [service1 raised].
  specialize (IH service1). destruct (grant_all _ _ _). simpl in *. by rewrite IH.
Qed.

Lemma transfer_events_failures (target : string) (files : list Item)
    (answers : list (option HttpError)) :
  length files = length answers →
  length (filter (λ ev, is_stderr ev = true) (transfer_events target files answers))
  = length (filter is_Some answers).
Proof.
  revert answers. induction files as [|item files IH]; intros [|raised answers] Hlen;
    try done.
  unfold transfer_events in *. simpl in *.
  rewrite filter_cons_False by done.
  rewrite !filter_cons. destruct raised as [error|]; simpl.
  - f_equal. apply IH. lia.
  - apply IH. lia.
Qed.

Lemma transfer_events_grants (target : string) (i : string) (files : list Item)
    (answers : list (option HttpError)) :
  length files = length answers →
  length (filter (λ ev, ev = PermissionsCreate i (owner_permission target))
                 (transfer_events target files answers))
  = count_id i files.
Proof.
  revert answers. induction files as [|item files IH]; intros [|raised answers] Hlen;
    try done.
  unfold transfer_events, count_id in *. simpl in *.
  rewrite (filter_cons _ (PermissionsCreate _ _)), (filter_cons _ item).
  rewrite (filter_cons_False _ (outcome_line _ _)) by (by destruct raised).
  destruct (decide (id item = i)) as [->|Hne].
  - rewrite decide_True by done. simpl. f_equal. apply IH. lia.
  - rewrite decide_False by congruence. apply IH. lia.
Qed.

Lemma transfer_loop_no_list_call (args : Args) (service : W) (files : list Item) :
  Forall (λ ev, is_list_call ev = false) (transfer_loop args service files).1.
Proof.
  revert service. induction files as [|item files IH]; intros service; simpl.
  - constructor.
  - destruct (dry_run args).
    + specialize (IH service). destruct (transfer_loop _ _ _). by constructor.
    + unfold transfer_file. destruct (permissions_create _ _ _) as [service1 raised].
      specialize (IH service1). destruct (transfer_loop _ _ _). simpl in *.
      repeat constructor; [by destruct raised | done].
Qed.

End Runner.

(** ** Counting occurrences in the result *)

Lemma count_id_app (i : string) (items1 items2 : list Item) :
  count_id i (items1 ++ items2) = count_id i items1 + count_id i items2.
Proof. unfold count_id. by rewrite filter_app, length_app. Qed.

Lemma count_id_concat (i : string) (chunks : list (list Item)) :
  count_id i (concat chunks) = sum_list_with (count_id i) chunks.
Proof.
  induction chunks as [|chunk chunks IH]; simpl; [done|].
  by rewrite count_id_app, IH.
Qed.

Lemma count_id_pos (i : string) (items : list Item) :
  i ∈ id <$> items → 1 ≤ count_id i items.
Proof.
  intros (item & -> & Hin)%list_elem_of_fmap. unfold count_id.
  assert (item ∈ filter (λ item', id item' = id item) items) as Hf
    by (by apply list_elem_of_filter).
  destruct (filter _ items); [by apply elem_of_nil in Hf | simpl; lia].
Qed.

Section Counting.
Context `{Drive W} (service : W) (source_email : string).

Abbreviation children := (children service source_email).

Lemma listing_not_both (n m : nat) (query : string) (size : nat)
    (page_token : option string) (error : HttpError) (items : list Item) :
  listing n service query size page_token = Raise error →
  listing m service query size page_token = Done items → False.
Proof.
  intros Hn Hm. destruct (decide (n ≤ m)).
  - rewrite (listing_mono service n m) in Hm by (done || by rewrite Hn). congruence.
  - rewrite (listing_mono service m n) in Hn by (lia || by rewrite Hm). congruence.
Qed.

(** Membership in the concatenated listings of the expanded folders. *)
Lemma elem_of_chunks (order : list string) (chunks : list (list Item)) (item : Item) :
  Forall2 children order chunks →
  item ∈ concat chunks
  ↔ ∃ f items, f ∈ order ∧ children f items ∧ item ∈ items.
Proof.
  induction 1 as [|f items order chunks Hf Hrest IH]; simpl.
  - split; [by intros ?%elem_of_nil|]. by intros (? & ? & ?%elem_of_nil & _).
  - rewrite elem_of_app, IH. split.
    + intros [Hin|(g & items' & Hg & Hch & Hin)].
      * exists f, items. split_and!; [set_solver | done..].
      * exists g, items'. split_and!; [set_solver | done..].
    + intros (g & items' & [->|Hg]%elem_of_cons & Hch & Hin).
      * left. by rewrite (children_det service source_email _ _ _ Hf Hch).
      * right. by exists g, items'.
Qed.

(** An ID listed once under [f] and nowhere else among the expanded
    folders occurs once in their concatenated listings. *)
Lemma count_listed_once (order : list string) (chunks : list (list Item))
    (i f : string) (items : list Item) :
  Forall2 children order chunks → NoDup order →
  children f items → count_id i items = 1 →
  (∀ g items', g ∈ order → g ≠ f → children g items' → count_id i items' = 0) →
  sum_list_with (count_id i) chunks = if decide (f ∈ order) then 1 else 0.
Proof.
  intros Hch. revert f items.
  induction Hch as [|g items' order chunks Hg Hrest IH];
    intros f items Hnd Hf Hone Hother.
  - by destruct (decide (f ∈ [])) as [?%elem_of_nil|].
  - simpl. apply NoDup_cons in Hnd as [Hfresh Hnd].
    rewrite (IH f items Hnd Hf Hone) by (intros; eapply Hother; eauto; set_solver).
    destruct (decide (g = f)) as [->|Hne].
    + rewrite (children_det service source_email _ _ _ Hg Hf), Hone.
      rewrite decide_False by done. rewrite decide_True by set_solver. done.
    + rewrite (Hother g items') by (done || set_solver).
      destruct (decide (f ∈ order)).
      * rewrite decide_True by set_solver. done.
      * rewrite decide_False by set_solver. done.
Qed.

(** Each of several distinct expanded folders that list an ID contributes
    at least one occurrence. *)
Lemma count_parents (order : list string) (chunks : list (list Item)) (i : string) :
  Forall2 children order chunks →
  ∀ parents, NoDup parents →
    (∀ p, p ∈ parents → p ∈ order ∧ ∃ items, children p items ∧ i ∈ id <$> items) →
    length parents ≤ sum_list_with (count_id i) chunks.
Proof.
  induction 1 as [|f items order chunks Hf Hrest IH]; intros parents Hnd Hp; simpl.
  - destruct parents as [|p parents]; [done|].
    destruct (Hp p) as [?%elem_of_nil _]; [set_solver | done].
  - destruct (decide (f ∈ parents)) as [Hin|Hout].
    + apply elem_of_Permutation in Hin as [rest Hperm].
      rewrite Hperm in Hnd. apply NoDup_cons in Hnd as [Hfresh Hnd].
      destruct (Hp f) as [_ (items' & Hch & Hi)]; [rewrite Hperm; set_solver|].
      rewrite (children_det service source_email _ _ _ Hch Hf) in Hi.
      apply count_id_pos in Hi.
      assert (length rest ≤ sum_list_with (count_id i) chunks) as Hrec.
      { apply IH; [done|]. intros p Hprest.
        destruct (Hp p) as [Ho Hl]; [rewrite Hperm; set_solver|].
        split; [|done]. apply elem_of_cons in Ho as [->|Ho]; done. }
      rewrite Hperm. simpl. lia.
    + assert (length parents ≤ sum_list_with (count_id i) chunks) as Hrec.
      { apply IH; [done|]. intros p Hpin. destruct (Hp p Hpin) as [Ho Hl].
        split; [|done]. apply elem_of_cons in Ho as [->|Ho]; done. }
      lia.
Qed.

End Counting.

(** ** Claims about [main] and the transfer loop *)

(** C7: with no folder IDs the scoped listing returns the empty list and
    makes no call at all (the trace is empty), whatever the fuel. *)
Theorem list_owned_in_folders_empty `{Drive W} (fuel : nat) (service : W)
    (source_email : string) :
  list_owned_in_folders fuel service source_email [] = ([], Done []).
Proof. by destruct fuel. Qed.

(** C8: when the listing returns no item, [main] prints the "no files" line,
    leaves the remote state as it was, makes no grant call, and exits
    with code 0. *)
Theorem main_no_files `{Drive W} (fuel : nat) (args : Args) (service : W)
    (t : list event) :
  list_selected fuel args service = (t, Done []) →
  main fuel args service = (t ++ [no_files_line], service, Some 0%Z)
  ∧ Forall (λ ev, is_grant ev = false) (t ++ [no_files_line]).
Proof.
  intros Hlist. unfold main. rewrite Hlist. split; [done|].
  apply Forall_app. split; [|by repeat constructor].
  apply list_calls_no_grant.
  pose proof (list_selected_calls fuel args service) as Hc. by rewrite Hlist in Hc.
Qed.

Lemma main_no_files_witness :
  list_selected 3 (mkArgs alice bob None false) blank
  = ([FilesList (mkListRequest (owned_query alice) 1000 None)], Done [])
  ∧ main 3 (mkArgs alice bob None false) blank
    = ([FilesList (mkListRequest (owned_query alice) 1000 None); no_files_line],
       blank, Some 0%Z).
Proof.
  split; [reflexivity|].
  apply (main_no_files 3 (mkArgs alice bob None false) blank
           [FilesList (mkListRequest (owned_query alice) 1000 None)]).
  reflexivity.
Defined.

(** C5: in a dry run no grant call is ever made and the remote state at
    exit is the one at entry; when the listing returned a nonempty list,
    what follows it in the trace is the count line and one "would transfer"
    line per item, in order. *)
Theorem dry_run_never_grants `{Drive W} (fuel : nat) (args : Args) (service : W) :
  dry_run args = true →
  Forall (λ ev, is_grant ev = false) (main fuel args service).1.1
  ∧ (main fuel args service).1.2 = service
  ∧ ∀ t files, list_selected fuel args service = (t, Done files) → files ≠ [] →
      main fuel args service
      = (t ++ found_line files :: (would_transfer_line <$> files), service, Some 0%Z).
Proof.
  intros Hdry. unfold main.
  pose proof (list_selected_calls fuel args service) as Hc.
  destruct (list_selected fuel args service) as [t r]. simpl in Hc.
  apply list_calls_no_grant in Hc.
  destruct r as [[|item files]|error|].
  - simpl. split_and!; [|done|by intros ?? [= <- <-]].
    apply Forall_app. split; [done | by repeat constructor].
  - rewrite (transfer_loop_dry args service (item :: files) Hdry). simpl.
    split_and!; [|done|by intros ?? [= <- <-]].
    apply Forall_app. split; [done|]. constructor; [done|].
    constructor; [done|]. apply Forall_fmap. by apply Forall_true.
  - simpl. split_and!; [|done|done].
    apply Forall_app. split; [done | by repeat constructor].
  - by split_and!.
Qed.

Lemma dry_run_never_grants_witness :
  dry_run (mkArgs alice bob None true) = true
  ∧ main 3 (mkArgs alice bob None true) abc
    = ([FilesList (mkListRequest (owned_query alice) 1000 None);
        found_line [doc "A"; doc "B"; doc "C"];
        would_transfer_line (doc "A"); would_transfer_line (doc "B");
        would_transfer_line (doc "C")],
       abc, Some 0%Z).
Proof.
  split; [reflexivity|].
  destruct (dry_run_never_grants 3 (mkArgs alice bob None true) abc eq_refl)
    as (_ & _ & Hrun).
  apply (Hrun [FilesList (mkListRequest (owned_query alice) 1000 None)]);
    [reflexivity | discriminate].
Defined.

Lemma transfer_events_calls (target : string) (files : list Item)
    (answers : list (option HttpError)) :
  length answers = length files →
  filter (λ ev, is_grant ev = true) (transfer_events target files answers)
  = (λ item, PermissionsCreate (id item) (owner_permission target)) <$> files.
Proof.
  revert answers. induction files as [|item files IH]; intros [|raised answers] Hlen;
    try done.
  unfold transfer_events in *. simpl in *.
  rewrite filter_cons_True by done.
  rewrite filter_cons_False by (by destruct raised).
  f_equal. apply IH. lia.
Qed.

(** C4: in a real run over a nonempty list, [main] makes one grant call per
    item, in list order, whatever the answers; each call is followed by that
    item's outcome line ("Transferred" when the call returned, "Failed" on
    standard error when it raised); the failure lines are as many as the
    calls that raised; and the exit code is 0. *)
Theorem main_continues_after_failed_transfer `{Drive W} (fuel : nat) (args : Args)
    (service : W) (t : list event) (files : list Item) :
  dry_run args = false → files ≠ [] →
  list_selected fuel args service = (t, Done files) →
  let body := owner_permission (target_email args) in
  let answers := (grant_all service body (id <$> files)).1 in
  main fuel args service
  = (t ++ found_line files :: transfer_events (target_email args) files answers,
     (grant_all service body (id <$> files)).2, Some 0%Z)
  ∧ length answers = length files
  ∧ filter (λ ev, is_grant ev = true) (transfer_events (target_email args) files answers)
    = (λ item, PermissionsCreate (id item) body) <$> files
  ∧ length (filter (λ ev, is_stderr ev = true)
                   (transfer_events (target_email args) files answers))
    = length (filter is_Some answers).
Proof.
  intros Hreal Hne Hlist body answers.
  assert (length answers = length files) as Hlen.
  { unfold answers. by rewrite grant_all_length, length_fmap. }
  split_and!.
  - unfold main. rewrite Hlist. destruct files as [|item files]; [done|].
    by rewrite (transfer_loop_real args service (item :: files) Hreal).
  - done.
  - by apply transfer_events_calls.
  - by apply transfer_events_failures.
Qed.

Lemma main_continues_after_failed_transfer_witness :
  main 3 (mkArgs alice bob None false) abc
  = ([FilesList (mkListRequest (owned_query alice) 1000 None);
      found_line [doc "A"; doc "B"; doc "C"];
      PermissionsCreate "A" (owner_permission bob); transferred_line (doc "A");
      PermissionsCreate "B" (owner_permission bob);
      failed_line (doc "B") (mkHttpError "403 insufficientFilePermissions");
      PermissionsCreate "C" (owner_permission bob); transferred_line (doc "C")],
     mkFake alice [] [inr [doc "A"; doc "B"; doc "C"]] ["B"]
            [("A", bob); ("C", bob)],
     Some 0%Z).
Proof.
  destruct (main_continues_after_failed_transfer 3 (mkArgs alice bob None false)
              abc [FilesList (mkListRequest (owned_query alice) 1000 None)]
              [doc "A"; doc "B"; doc "C"]) as (Hmain & _);
    [reflexivity | discriminate | reflexivity |].
  rewrite Hmain. reflexivity.
Defined.

(** C3: if any listing request that [main] makes fails, the listing raised
    that error instead of returning a list, [main] reports it on standard
    error, makes no grant call, leaves the remote state as it was, and
    exits with code 1. *)
Theorem main_listing_failure `{Drive W} (fuel : nat) (args : Args) (service : W)
    (req : ListRequest) (error : HttpError) :
  FilesList req ∈ (main fuel args service).1.1 →
  files_list service req = inl error →
  ∃ t, list_selected fuel args service = (t, Raise error)
       ∧ main fuel args service
         = (t ++ [listing_failed_line error], service, Some 1%Z)
       ∧ Forall (λ ev, is_grant ev = false) (t ++ [listing_failed_line error]).
Proof.
  intros Hin Hfail.
  pose proof (list_selected_failure fuel args service req error) as Hraise.
  pose proof (list_selected_calls fuel args service) as Hcalls.
  unfold main in *. destruct (list_selected fuel args service) as [t r].
  simpl in Hraise, Hcalls.
  assert (FilesList req ∈ t) as Hint.
  { destruct r as [[|item files]|e|].
    - simpl in Hin. apply elem_of_app in Hin as [?|Hin]; [done|]. set_solver.
    - pose proof (transfer_loop_no_list_call args service (item :: files)) as Hno.
      destruct (transfer_loop args service (item :: files)) as [t2 service2].
      simpl in Hin, Hno.
      apply elem_of_app in Hin as [?|Hin]; [done|].
      apply elem_of_cons in Hin as [?|Hin]; [done|].
      rewrite Forall_forall in Hno. by apply Hno in Hin.
    - simpl in Hin. apply elem_of_app in Hin as [?|Hin]; [done|]. set_solver.
    - done. }
  rewrite (Hraise Hint Hfail). exists t. split_and!; [done..|].
  apply Forall_app. split; [by apply list_calls_no_grant | by repeat constructor].
Qed.

Lemma main_listing_failure_witness :
  main 5 (mkArgs alice bob (Some ["R"]) false) broken
  = ([FilesList (mkListRequest (folder_query alice "R") 200 None);
      FilesList (mkListRequest (folder_query alice "R") 200 (Some "p"));
      listing_failed_line (mkHttpError "500 backendError")],
     broken, Some 1%Z).
Proof.
  destruct (main_listing_failure 5 (mkArgs alice bob (Some ["R"]) false) broken
              (mkListRequest (folder_query alice "R") 200 (Some "p"))
              (mkHttpError "500 backendError"))
    as (t & Hlist & Hmain & _).
  - vm_compute. set_solver.
  - reflexivity.
  - rewrite Hmain. injection Hlist as <-. reflexivity.
Defined.

(** ** Claims about the scoped traversal *)

(** C2: whatever the folder IDs given -- repeated IDs, folders that list
    themselves or each other -- the first page of a folder's children is
    requested at most once in any run, however long it is left to run; and
    when the reachable folders are finitely many and each of their
    paginations ends, the traversal ends: from some fuel on it gives one
    and the same answer, which is a result or an error. *)
Theorem traversal_terminates_expanding_once `{Drive W} (service : W)
    (source_email : string) (roots : list string) :
  (∀ fuel f,
     expansions source_email f
       (list_owned_in_folders fuel service source_email roots).1 ≤ 1)
  ∧ (finite_reach service source_email roots →
     (∀ f, reach service source_email roots f →
           ∃ n, listing n service (folder_query source_email f) 200 None
                ≠ OutOfFuel) →
     ∃ N, (list_owned_in_folders N service source_email roots).2 ≠ OutOfFuel
          ∧ ∀ fuel, N ≤ fuel →
              list_owned_in_folders fuel service source_email roots
              = list_owned_in_folders N service source_email roots).
Proof.
  split.
  - intros fuel f. apply folders_loop_expansions.
  - intros Hfin Hpages.
    destruct (list_owned_in_folders_terminates service source_email roots
                Hfin Hpages) as (N & Hne & _).
    exists N. split; [done|]. intros fuel Hle.
    by apply folders_loop_mono.
Qed.

Lemma knot_pages_end (roots : list string) (f : string) :
  reach knot alice roots f →
  ∃ n, listing n knot (folder_query alice f) 200 None ≠ OutOfFuel.
Proof.
  intros _. destruct (fake_children knot f eq_refl) as [n Hn].
  exists n. change (fake_owner knot) with alice in Hn. by rewrite Hn.
Qed.

Lemma traversal_terminates_expanding_once_witness :
  (∀ fuel f,
     expansions alice f (list_owned_in_folders fuel knot alice ["A"; "A"; "B"]).1 ≤ 1)
  ∧ ∃ N, (list_owned_in_folders N knot alice ["A"; "A"; "B"]).2 ≠ OutOfFuel
         ∧ ∀ fuel, N ≤ fuel →
             list_owned_in_folders fuel knot alice ["A"; "A"; "B"]
             = list_owned_in_folders N knot alice ["A"; "A"; "B"].
Proof.
  destruct (traversal_terminates_expanding_once knot alice ["A"; "A"; "B"])
    as [Honce Hends].
  split; [exact Honce|]. apply Hends.
  - exact (fake_finite_reach knot ["A"; "A"; "B"] eq_refl).
  - exact (knot_pages_end ["A"; "A"; "B"]).
Defined.

(** C9: the given folder IDs are only put on the queue.  Every ID in the
    returned list, a root's included, is the ID of an item that the listing
    of some queried folder returned; a root that no folder lists is not in
    the result. *)
Theorem roots_only_expanded `{Drive W} (fuel : nat) (service : W)
    (source_email : string) (roots : list string) (t : list event)
    (result : list Item) :
  list_owned_in_folders fuel service source_email roots = (t, Done result) →
  (∀ i, i ∈ id <$> result →
     ∃ f items,
       FilesList (mkListRequest (folder_query source_email f) 200 None) ∈ t
       ∧ children service source_email f items ∧ i ∈ id <$> items)
  ∧ (∀ r, r ∈ roots →
       (∀ f items, children service source_email f items → r ∉ id <$> items) →
       r ∉ id <$> result).
Proof.
  intros Hrun.
  destruct (list_owned_in_folders_done service source_email fuel roots t result
              Hrun) as (order & chunks & Hnd & Hreach & Hch & -> & Htr).
  assert (∀ i, i ∈ id <$> concat chunks →
     ∃ f items,
       FilesList (mkListRequest (folder_query source_email f) 200 None) ∈ t
       ∧ children service source_email f items ∧ i ∈ id <$> items) as Hsrc.
  { intros i (item & -> & Hin)%list_elem_of_fmap.
    apply (elem_of_chunks service source_email order chunks item Hch) in Hin
      as (f & items & Hf & Hfi & Hin).
    exists f, items. split_and!; [by apply Htr | done |].
    apply list_elem_of_fmap. by exists item. }
  split; [done|].
  intros r _ Hnot Hin. destruct (Hsrc r Hin) as (f & items & _ & Hfi & Hr).
  by apply (Hnot f items).
Qed.

Lemma roots_only_expanded_witness :
  (∀ i, i ∈ id <$> [folder "D"; doc "r1"; doc "r2"; doc "d1"] →
     ∃ f items,
       FilesList (mkListRequest (folder_query alice f) 200 None)
       ∈ [FilesList (mkListRequest (folder_query alice "R") 200 None);
          FilesList (mkListRequest (folder_query alice "R") 200 (Some "p"));
          FilesList (mkListRequest (folder_query alice "D") 200 None)]
       ∧ children tree alice f items ∧ i ∈ id <$> items)
  ∧ (∀ r, r ∈ ["R"] →
       (∀ f items, children tree alice f items → r ∉ id <$> items) →
       r ∉ id <$> [folder "D"; doc "r1"; doc "r2"; doc "d1"]).
Proof.
  apply (roots_only_expanded 4 tree alice ["R"]). vm_compute. reflexivity.
Defined.

(** C10: the visited set only keeps a folder from being expanded twice.  A
    completed traversal returns the listings of the reachable folders, one
    listing per folder, so an ID occurs in the result as often as it occurs
    in those listings together: at least once for each reachable folder that
    lists it.  In a real run each occurrence gets its own grant call. *)
Theorem result_repeats_item_per_parent `{Drive W} (fuel : nat) (service : W)
    (source_email : string) (roots : list string) (t : list event)
    (result : list Item) :
  list_owned_in_folders fuel service source_email roots = (t, Done result) →
  (∃ order chunks,
     NoDup order ∧ (∀ f, f ∈ order ↔ reach service source_email roots f)
     ∧ Forall2 (children service source_email) order chunks
     ∧ ∀ i, count_id i result = sum_list_with (count_id i) chunks)
  ∧ (∀ i parents, NoDup parents →
       (∀ p, p ∈ parents →
          reach service source_email roots p
          ∧ ∃ items, children service source_email p items ∧ i ∈ id <$> items) →
       length parents ≤ count_id i result)
  ∧ (∀ args service' i, dry_run args = false →
       length (filter (λ ev, ev = PermissionsCreate i
                                    (owner_permission (target_email args)))
                      (transfer_loop args service' result).1)
       = count_id i result).
Proof.
  intros Hrun.
  destruct (list_owned_in_folders_done service source_email fuel roots t result
              Hrun) as (order & chunks & Hnd & Hreach & Hch & -> & _).
  split_and!.
  - exists order, chunks. split_and!; try done. intros i. apply count_id_concat.
  - intros i parents Hndp Hp. rewrite count_id_concat.
    apply (count_parents service source_email order chunks i Hch parents Hndp).
    intros p Hpin. destruct (Hp p Hpin) as [Hr Hl]. split; [by apply Hreach | done].
  - intros args service' i Hreal. rewrite transfer_loop_real by done. simpl.
    apply transfer_events_grants. by rewrite grant_all_length, length_fmap.
Qed.

Lemma diamond_run :
  list_owned_in_folders 4 diamond alice ["A"]
  = ([FilesList (mkListRequest (folder_query alice "A") 200 None);
      FilesList (mkListRequest (folder_query alice "B") 200 None);
      FilesList (mkListRequest (folder_query alice "C") 200 None)],
     Done [folder "B"; folder "C"; doc "X"; doc "X"]).
Proof. vm_compute. reflexivity. Qed.

Lemma result_repeats_item_per_parent_witness :
  2 ≤ count_id "X" [folder "B"; folder "C"; doc "X"; doc "X"]
  ∧ ∀ service',
      length (filter (λ ev, ev = PermissionsCreate "X" (owner_permission bob))
                (transfer_loop (mkArgs alice bob (Some ["A"]) false) service'
                   [folder "B"; folder "C"; doc "X"; doc "X"]).1)
      = count_id "X" [folder "B"; folder "C"; doc "X"; doc "X"].
Proof.
  destruct (result_repeats_item_per_parent 4 diamond alice ["A"] _ _ diamond_run)
    as (_ & Hparents & Hgrants).
  split.
  - apply (Hparents "X" ["B"; "C"]).
    + apply NoDup_cons. split; [set_solver|]. apply NoDup_singleton.
    + intros p Hp. split.
      * exists "A". split; [set_solver|].
        apply rtc_once. exists [folder "B"; folder "C"].
        split; [by exists 1|]. vm_compute. set_solver.
      * exists [doc "X"].
        split; [|vm_compute; set_solver].
        apply elem_of_cons in Hp as [->|Hp]; [by exists 1|].
        apply list_elem_of_singleton in Hp as ->. by exists 1.
  - intros service'.
    apply (Hgrants (mkArgs alice bob (Some ["A"]) false) service' "X" eq_refl).
Defined.

(** ** C1: what the scoped listing returns *)

(** C1, as amended: when the folders reachable from the given IDs are
    finitely many and each of their listings is answered in full, the
    traversal ends and returns exactly the items listed under the reachable
    folders; an ID that is listed once, under one reachable folder only,
    occurs exactly once in the result. *)
Theorem scoped_listing_complete `{Drive W} (service : W) (source_email : string)
    (roots : list string) :
  finite_reach service source_email roots →
  (∀ f, reach service source_email roots f →
        ∃ items, children service source_email f items) →
  ∃ N, ∀ fuel, N ≤ fuel →
    ∃ t result,
      list_owned_in_folders fuel service source_email roots = (t, Done result)
      ∧ (∀ item, item ∈ result ↔ reachable_item service source_email roots item)
      ∧ (∀ i, listed_once service source_email roots i → count_id i result = 1).
Proof.
  intros Hfin Hlisted.
  destruct (list_owned_in_folders_terminates service source_email roots Hfin)
    as (N & Hne & Herr).
  { intros f Hf. destruct (Hlisted f Hf) as (items & n & Hn).
    exists n. by rewrite Hn. }
  exists N. intros fuel Hle.
  unfold list_owned_in_folders in *.
  rewrite (folders_loop_mono service N fuel) by done.
  destruct (folders_loop N service source_email ∅ roots []) as [t r] eqn:Hrun.
  simpl in Hne, Herr. destruct r as [result|error|]; [| |done].
  2:{ destruct (Herr error eq_refl) as (f & n & Hf & Hn).
      destruct (Hlisted f Hf) as (items & m & Hm).
      destruct (listing_not_both service n m _ _ _ _ _ Hn Hm). }
  exists t, result. split; [done|].
  destruct (list_owned_in_folders_done service source_email N roots t result
              Hrun) as (order & chunks & Hnd & Hreach & Hch & -> & _).
  split.
  - intros item. rewrite (elem_of_chunks service source_email order chunks item Hch).
    split.
    + intros (f & items & Hf & Hfi & Hin). exists f, items.
      split_and!; [by apply Hreach | done..].
    + intros (f & items & Hf & Hfi & Hin). exists f, items.
      split_and!; [by apply Hreach | done..].
  - intros i (f & items & Hf & Hfi & Hone & Hother).
    rewrite count_id_concat.
    rewrite (count_listed_once service source_email order chunks i f items
               Hch Hnd Hfi Hone).
    + rewrite decide_True; [done | by apply Hreach].
    + intros g items' Hg Hne' Hgi. apply (Hother g items'); [by apply Hreach | done..].
Qed.

Lemma tree_listed (f : string) :
  reach tree alice ["R"] f → ∃ items, children tree alice f items.
Proof. intros _. exists (fake_items tree f). exact (fake_children tree f eq_refl). Qed.

Lemma scoped_listing_complete_witness :
  ∃ N, ∀ fuel, N ≤ fuel →
    ∃ t result,
      list_owned_in_folders fuel tree alice ["R"] = (t, Done result)
      ∧ (∀ item, item ∈ result ↔ reachable_item tree alice ["R"] item)
      ∧ (∀ i, listed_once tree alice ["R"] i → count_id i result = 1).
Proof.
  apply (scoped_listing_complete tree alice ["R"]).
  - exact (fake_finite_reach tree ["R"] eq_refl).
  - exact tree_listed.
Defined.

(** In [diamond] every sub-folder edge leaves A for B or C. *)
Lemma diamond_subfolder (f g : string) :
  subfolder diamond alice f g → f = "A" ∧ g ≠ "A".
Proof.
  intros Hg%(fake_subfolder diamond f g eq_refl).
  unfold fake_items in Hg. simpl in Hg.
  repeat case_decide; subst; vm_compute in Hg; set_solver.
Qed.

Lemma diamond_acyclic : acyclic diamond alice ["A"].
Proof.
  intros f _ Hcycle.
  assert (∀ x z, tc (subfolder diamond alice) x z → x = "A" ∧ z ≠ "A") as Hpath.
  { induction 1 as [x z Hxz|x y z Hxy _ [_ Hz]].
    - by apply diamond_subfolder.
    - split; [|done]. by apply diamond_subfolder in Hxy as [-> _]. }
  destruct (Hpath f f Hcycle) as [-> Hne]. done.
Qed.

(** C1, as stated, fails on an acyclic folder graph: the file X lies in
    both B and C, and the listing of A returns it twice. *)
Lemma exactly_once_fails_on_diamond :
  acyclic diamond alice ["A"] ∧ ¬ visits_exactly_once diamond alice ["A"].
Proof.
  split; [exact diamond_acyclic|]. intros Hclaim.
  specialize (Hclaim 4 _ _ diamond_run (doc "X")).
  assert (reachable_item diamond alice ["A"] (doc "X")) as Hx.
  { exists "B", [doc "X"]. split_and!.
    - exists "A". split; [set_solver|].
      apply rtc_once. exists [folder "B"; folder "C"].
      split; [by exists 1|]. vm_compute. set_solver.
    - by exists 1.
    - set_solver. }
  apply Hclaim in Hx. vm_compute in Hx. discriminate.
Qed.

(** * Further properties of the listing functions *)

Lemma folder_ids_of_app (items1 items2 : list Item) :
  folder_ids_of (items1 ++ items2) = folder_ids_of items1 ++ folder_ids_of items2.
Proof. unfold folder_ids_of. by rewrite filter_app, fmap_app. Qed.

Lemma first_page_queries_app (t1 t2 : list event) :
  first_page_queries (t1 ++ t2) = first_page_queries t1 ++ first_page_queries t2.
Proof. unfold first_page_queries. apply omap_app. Qed.

Lemma first_seen_skip (seen : gset string) (i : string) (ids : list string) :
  i ∈ seen → first_seen seen (i :: ids) = first_seen seen ids.
Proof. intros Hi. simpl. by rewrite decide_True. Qed.

Lemma first_seen_keep (seen : gset string) (i : string) (ids : list string) :
  i ∉ seen → first_seen seen (i :: ids) = i :: first_seen (seen ∪ {[i]}) ids.
Proof. intros Hi. simpl. by rewrite decide_False. Qed.

Section Order.
Context `{Drive W} (service : W) (source_email : string).

(** A page loop that is given a token makes no first-page request; one that
    starts without a token makes exactly one, for its query. *)
Lemma folder_pages_loop_first_page_queries (fuel : nat) (query : string)
    (page_token : option string) (st : list string * list Item) :
  (folder_pages_loop fuel service query page_token st).2 ≠ OutOfFuel →
  first_page_queries (folder_pages_loop fuel service query page_token st).1
  = match page_token with None => [query] | Some _ => [] end.
Proof.
  revert page_token st. induction fuel as [|fuel IH]; intros page_token st; simpl.
  - done.
  - destruct (files_list _ _) as [error|response]; simpl.
    { intros _. by destruct page_token. }
    destruct (negb (truthy _)) eqn:Htruthy; simpl.
    { intros _. by destruct page_token. }
    apply negb_false_iff in Htruthy.
    specialize (IH (nextPageToken response)
                  (foldl visit_item st (response_files response))).
    destruct (folder_pages_loop _ _ _ _ _) as [t r]. simpl in *. intros Hr.
    unfold first_page_queries in *. simpl. rewrite (IH Hr).
    destruct (nextPageToken response); [|done]. by destruct page_token.
Qed.

Lemma folder_pages_loop_requests (fuel : nat) (query : string)
    (page_token : option string) (st : list string * list Item)
    (req : ListRequest) :
  FilesList req ∈ (folder_pages_loop fuel service query page_token st).1 →
  q req = query ∧ pageSize req = 200.
Proof.
  revert page_token st. induction fuel as [|fuel IH]; intros page_token st; simpl.
  - by intros ?%elem_of_nil.
  - destruct (files_list _ _) as [error|response].
    { by intros ->%list_elem_of_singleton%(inj FilesList). }
    destruct (negb _).
    { by intros ->%list_elem_of_singleton%(inj FilesList). }
    specialize (IH (nextPageToken response)
                  (foldl visit_item st (response_files response))).
    destruct (folder_pages_loop _ _ _ _ _) as [t r]. simpl in *.
    intros [->%(inj FilesList)|Hin]%elem_of_cons; [done | auto].
Qed.

Lemma folder_pages_loop_trace (fuel : nat) (query : string)
    (page_token : option string) (st st' : list string * list Item) :
  (folder_pages_loop fuel service query page_token st).1
  = (folder_pages_loop fuel service query page_token st').1.
Proof.
  revert page_token st st'.
  induction fuel as [|fuel IH]; intros page_token st st'; simpl; [done|].
  destruct (files_list _ _) as [error|response]; [done|].
  destruct (negb _); [done|].
  specialize (IH (nextPageToken response)
                (foldl visit_item st (response_files response))
                (foldl visit_item st' (response_files response))).
  do 2 destruct (folder_pages_loop _ _ _ _ _). simpl in *. by rewrite IH.
Qed.

(** The loop head invariant behind the order of expansion. *)
Lemma folders_loop_order (fuel : nat) (seen : gset string) (queue : list string)
    (files : list Item) (t : list event) (result : list Item) :
  folders_loop fuel service source_email seen queue files = (t, Done result) →
  ∃ chunks : list (list Item),
    result = files ++ concat chunks
    ∧ Forall2 (children service source_email)
        (first_seen seen (queue ++ folder_ids_of (concat chunks))) chunks
    ∧ first_page_queries t
      = folder_query source_email
        <$> first_seen seen (queue ++ folder_ids_of (concat chunks)).
Proof.
  revert seen queue files t result.
  induction fuel as [|fuel IH]; intros seen [|f queue] files t result Hrun;
    simpl in Hrun; try done.
  - injection Hrun as <- <-. exists []. rewrite app_nil_r. simpl.
    split_and!; [done | constructor | done].
  - injection Hrun as <- <-. exists []. rewrite app_nil_r. simpl.
    split_and!; [done | constructor | done].
  - case_decide as Hseen.
    + destruct (IH _ _ _ _ _ Hrun) as (chunks & Hres & Hch & Htr).
      exists chunks. rewrite <- app_comm_cons, first_seen_skip by done. done.
    + pose proof (folder_pages_loop_listing service fuel
                    (folder_query source_email f) None queue files) as HL.
      pose proof (folder_pages_loop_first_page_queries fuel
                    (folder_query source_email f) None (queue, files)) as HF.
      destruct (folder_pages_loop _ _ _ _ _) as [t1 [[queue1 files1]| |]];
        simpl in *; try done.
      destruct (listing _ _ _ _ _) as [items| |] eqn:Hlist; try done.
      injection HL as -> ->.
      destruct (folders_loop _ _ _ _ _ _) as [t2 r2] eqn:Hrest.
      injection Hrun as <- ->.
      destruct (IH _ _ _ _ _ Hrest) as (chunks & Hres & Hch & Htr).
      exists (items :: chunks).
      change (concat (items :: chunks)) with (items ++ concat chunks).
      rewrite !decide_False by done.
      rewrite folder_ids_of_app, (app_assoc queue).
      split_and!.
      * rewrite Hres. by rewrite app_assoc.
      * constructor; [by exists fuel | done].
      * rewrite first_page_queries_app, HF by done. rewrite Htr. done.
Qed.

(** Requests of a completed run of the outer loop are for the children of
    a queued folder or of a folder item added to the result. *)
Lemma folders_loop_requests (fuel : nat) (seen : gset string) (queue : list string)
    (files : list Item) (t : list event) (result : list Item) :
  folders_loop fuel service source_email seen queue files = (t, Done result) →
  ∃ new : list Item,
    result = files ++ new
    ∧ ∀ req, FilesList req ∈ t →
        pageSize req = 200
        ∧ ∃ f, q req = folder_query source_email f
               ∧ (f ∈ queue ∨ f ∈ folder_ids_of new).
Proof.
  revert seen queue files t result.
  induction fuel as [|fuel IH]; intros seen [|f queue] files t result Hrun;
    simpl in Hrun; try done.
  - injection Hrun as <- <-. exists []. rewrite app_nil_r.
    split; [done|]. by intros ? ?%elem_of_nil.
  - injection Hrun as <- <-. exists []. rewrite app_nil_r.
    split; [done|]. by intros ? ?%elem_of_nil.
  - case_decide as Hseen.
    + destruct (IH _ _ _ _ _ Hrun) as (new & Hres & Hreq).
      exists new. split; [done|]. intros req Hin.
      destruct (Hreq req Hin) as (Hsize & g & Hq & [Hg|Hg]).
      * split; [done|]. exists g. split; [done|]. left. set_solver.
      * split; [done|]. exists g. split; [done|]. by right.
    + pose proof (folder_pages_loop_listing service fuel
                    (folder_query source_email f) None queue files) as HL.
      pose proof (folder_pages_loop_requests fuel
                    (folder_query source_email f) None (queue, files)) as HP.
      destruct (folder_pages_loop _ _ _ _ _) as [t1 [[queue1 files1]| |]];
        simpl in *; try done.
      destruct (listing _ _ _ _ _) as [items| |] eqn:Hlist; try done.
      injection HL as -> ->.
      destruct (folders_loop _ _ _ _ _ _) as [t2 r2] eqn:Hrest.
      injection Hrun as <- ->.
      destruct (IH _ _ _ _ _ Hrest) as (new & Hres & Hreq).
      exists (items ++ new). split; [by rewrite Hres, app_assoc|].
      intros req [Hin|Hin]%elem_of_app.
      * destruct (HP req Hin) as [Hq Hsize]. split; [done|].
        exists f. split; [done|]. left. set_solver.
      * destruct (Hreq req Hin) as (Hsize & g & Hq & [Hg|Hg]).
        -- split; [done|]. exists g. split; [done|].
           rewrite folder_ids_of_app.
           apply elem_of_app in Hg as [Hg|Hg]; [left | right]; set_solver.
        -- split; [done|]. exists g. split; [done|].
           right. rewrite folder_ids_of_app. set_solver.
Qed.

Lemma folders_loop_seen (fuel : nat) (seen : gset string) (f : string)
    (queue : list string) (files : list Item) :
  f ∈ seen →
  folders_loop (S fuel) service source_email seen (f :: queue) files
  = folders_loop fuel service source_email seen queue files.
Proof. intros Hf. simpl. by rewrite decide_True. Qed.

Lemma folders_loop_unseen (fuel : nat) (seen : gset string) (f : string)
    (queue : list string) (files : list Item) :
  f ∉ seen →
  folders_loop (S fuel) service source_email seen (f :: queue) files
  = match folder_pages_loop fuel service (folder_query source_email f) None
            (queue, files) with
    | (t1, Done (queue, files)) =>
      let '(t2, r) :=
        folders_loop fuel service source_email (seen ∪ {[f]}) queue files in
      (t1 ++ t2, r)
    | (t1, Raise error) => (t1, Raise error)
    | (t1, OutOfFuel) => (t1, OutOfFuel)
    end.
Proof. intros Hf. simpl. by rewrite decide_False. Qed.

(** An ID that is already seen, or that stands earlier in the queue, can be
    taken out of the queue: the run is the same, one loop body shorter. *)
Lemma folders_loop_skip (fuel : nat) (f : string) (seen : gset string)
    (queue1 queue2 : list string) (files : list Item) :
  f ∈ seen ∨ f ∈ queue1 →
  (folders_loop fuel service source_email seen (queue1 ++ queue2) files).2
  ≠ OutOfFuel →
  folders_loop (S fuel) service source_email seen (queue1 ++ f :: queue2) files
  = folders_loop fuel service source_email seen (queue1 ++ queue2) files.
Proof.
  revert seen queue1 queue2 files.
  induction fuel as [|fuel IH]; intros seen queue1 queue2 files Hf Hrun.
  - destruct queue1 as [|g queue1]; [|done]. destruct queue2; [|done].
    destruct Hf as [Hf|?%elem_of_nil]; [|done].
    rewrite !app_nil_l. by rewrite folders_loop_seen.
  - destruct queue1 as [|g queue1].
    { destruct Hf as [Hf|?%elem_of_nil]; [|done].
      rewrite !app_nil_l. by rewrite folders_loop_seen. }
    rewrite <- !app_comm_cons in *.
    destruct (decide (g ∈ seen)) as [Hg|Hg].
    { rewrite folders_loop_seen in Hrun by done.
      rewrite !folders_loop_seen by done.
      apply IH; [|done]. destruct Hf as [?|[->|?]%elem_of_cons]; auto. }
    rewrite folders_loop_unseen in Hrun by done.
    rewrite !folders_loop_unseen by done.
    pose proof (folder_pages_loop_listing service fuel
                  (folder_query source_email g) None (queue1 ++ queue2) files) as HL.
    pose proof (folder_pages_loop_listing service fuel
                  (folder_query source_email g) None (queue1 ++ f :: queue2) files)
      as HL'.
    pose proof (folder_pages_loop_trace fuel (folder_query source_email g) None
                  (queue1 ++ queue2, files) (queue1 ++ f :: queue2, files)) as HT.
    rewrite (folder_pages_loop_mono service fuel (S fuel)); [|lia|].
    2:{ rewrite HL'.
        destruct (folder_pages_loop fuel service _ None (queue1 ++ queue2, files))
          as [t1 r1]. simpl in HL. subst r1.
        by destruct (listing _ _ _ _ _). }
    destruct (folder_pages_loop fuel service _ None (queue1 ++ queue2, files))
      as [t1 r1].
    destruct (folder_pages_loop fuel service _ None (queue1 ++ f :: queue2, files))
      as [t1' r1'].
    simpl in HL, HL', HT. subst t1' r1 r1'.
    destruct (listing _ _ _ _ _) as [items| |]; [|done..].
    rewrite <- !app_assoc, <- app_comm_cons.
    rewrite <- app_assoc in Hrun.
    rewrite IH; [done | |].
    + destruct Hf as [?|[->|?]%elem_of_cons]; [left|left|right]; set_solver.
    + by destruct (folders_loop _ _ _ _ _ _).
Qed.

End Order.

(** ** The scoped listing: order, requests, repeated IDs *)

(** X1: a completed scoped listing requests the children of the folders in
    the order in which their IDs first appear in the input followed by the
    folder items of the result (first in, first out; later occurrences are
    skipped), and the result is the concatenation of their complete
    listings in that order. *)
Theorem folders_expanded_in_first_seen_order `{Drive W} (fuel : nat) (service : W)
    (source_email : string) (roots : list string) (t : list event)
    (result : list Item) :
  list_owned_in_folders fuel service source_email roots = (t, Done result) →
  first_page_queries t
  = folder_query source_email <$> first_seen ∅ (roots ++ folder_ids_of result)
  ∧ ∃ chunks,
      Forall2 (children service source_email)
        (first_seen ∅ (roots ++ folder_ids_of result)) chunks
      ∧ result = concat chunks.
Proof.
  intros Hrun.
  destruct (folders_loop_order service source_email fuel ∅ roots [] t result Hrun)
    as (chunks & Hres & Hch & Htr).
  simpl in Hres. subst result. split; [done|]. by exists chunks.
Qed.

Lemma knot_run :
  list_owned_in_folders 8 knot alice ["A"; "A"; "B"]
  = ([FilesList (mkListRequest (folder_query alice "A") 200 None);
      FilesList (mkListRequest (folder_query alice "A") 200 (Some "p"));
      FilesList (mkListRequest (folder_query alice "B") 200 None);
      FilesList (mkListRequest (folder_query alice "C") 200 None)],
     Done [folder "A"; doc "a1"; folder "B"; folder "C"; folder "B"; doc "c1"]).
Proof. vm_compute. reflexivity. Qed.

Lemma folders_expanded_in_first_seen_order_witness :
  first_page_queries
    [FilesList (mkListRequest (folder_query alice "A") 200 None);
     FilesList (mkListRequest (folder_query alice "A") 200 (Some "p"));
     FilesList (mkListRequest (folder_query alice "B") 200 None);
     FilesList (mkListRequest (folder_query alice "C") 200 None)]
  = folder_query alice <$> ["A"; "B"; "C"].
Proof.
  destruct (folders_expanded_in_first_seen_order 8 knot alice ["A"; "A"; "B"]
              _ _ knot_run) as [Horder _].
  rewrite Horder. vm_compute. reflexivity.
Defined.

(** X3: naming a folder ID again later in the input changes neither the
    requests made nor the result; the run only takes one more turn of the
    outer loop. *)
Theorem repeated_folder_id_ignored `{Drive W} (fuel : nat) (service : W)
    (source_email f : string) (roots1 roots2 : list string) :
  f ∈ roots1 →
  (list_owned_in_folders fuel service source_email (roots1 ++ roots2)).2
  ≠ OutOfFuel →
  list_owned_in_folders (S fuel) service source_email (roots1 ++ f :: roots2)
  = list_owned_in_folders fuel service source_email (roots1 ++ roots2).
Proof.
  intros Hf Hrun. apply folders_loop_skip; [by right | done].
Qed.

Lemma repeated_folder_id_ignored_witness :
  list_owned_in_folders 8 knot alice (["A"] ++ "A" :: ["B"])
  = list_owned_in_folders 7 knot alice (["A"] ++ ["B"]).
Proof.
  apply (repeated_folder_id_ignored 7 knot alice "A" ["A"] ["B"]).
  - set_solver.
  - vm_compute. discriminate.
Defined.

(** ** The unscoped listing *)

Section Unscoped.
Context `{Drive W} (service : W).

Lemma list_owned_files_loop_pages (fuel : nat) (query : string)
    (page_token : option string) (files : list Item) (t : list event)
    (result : list Item) :
  list_owned_files_loop fuel service query page_token files = (t, Done result) →
  ∃ (init : list Response) (final : Response),
    t = (λ tok, FilesList (mkListRequest query 1000 tok))
        <$> (page_token :: (nextPageToken <$> init))
    ∧ Forall2 (λ tok response,
                 files_list service (mkListRequest query 1000 tok) = inr response)
        (page_token :: (nextPageToken <$> init)) (init ++ [final])
    ∧ Forall (λ response, truthy (nextPageToken response) = true) init
    ∧ truthy (nextPageToken final) = false
    ∧ result = files ++ concat (response_files <$> init ++ [final]).
Proof.
  revert page_token files t result.
  induction fuel as [|fuel IH]; intros page_token files t result; simpl; [done|].
  destruct (files_list _ _) as [error|response] eqn:Hcall; [done|].
  destruct (negb (truthy _)) eqn:Htruthy.
  - intros [= <- <-]. apply negb_true_iff in Htruthy.
    exists [], response. simpl. rewrite app_nil_r.
    split_and!; try done. by repeat constructor.
  - apply negb_false_iff in Htruthy.
    destruct (list_owned_files_loop _ _ _ _ _) as [t' r'] eqn:Hrest.
    intros [= <- ->].
    destruct (IH _ _ _ _ Hrest) as (init & final & Ht & Hans & Hinit & Hfinal & Hres).
    exists (response :: init), final. simpl.
    split_and!; try done.
    + by rewrite Ht.
    + by constructor.
    + by constructor.
    + rewrite Hres. by rewrite app_assoc.
Qed.

End Unscoped.

(** X4: a completed unscoped listing made its requests with one query and
    page size 1000, the first without a token and each later one with the
    token of the response before it; every response but the last carried a
    non-empty token and the last carried none or an empty one; the result is
    the files of all the responses, in order (a response without a [files]
    key adds nothing). *)
Theorem list_owned_files_follows_tokens `{Drive W} (fuel : nat) (service : W)
    (source_email : string) (t : list event) (result : list Item) :
  list_owned_files fuel service source_email = (t, Done result) →
  ∃ (init : list Response) (final : Response),
    t = owned_request source_email <$> (None :: (nextPageToken <$> init))
    ∧ Forall2 (λ tok response,
                 files_list service
                   (mkListRequest (owned_query source_email) 1000 tok)
                 = inr response)
        (None :: (nextPageToken <$> init)) (init ++ [final])
    ∧ Forall (λ response, truthy (nextPageToken response) = true) init
    ∧ truthy (nextPageToken final) = false
    ∧ result = concat (response_files <$> init ++ [final]).
Proof. intros Hrun. by apply list_owned_files_loop_pages in Hrun. Qed.

Lemma list_owned_files_follows_tokens_witness :
  ∃ (init : list Response) (final : Response),
    [owned_request alice None; owned_request alice (Some "p")]
    = owned_request alice <$> (None :: (nextPageToken <$> init))
    ∧ Forall2 (λ tok response,
                 files_list (mkFake alice [] [inr [doc "A"]; inr [doc "B"]] [] [])
                   (mkListRequest (owned_query alice) 1000 tok)
                 = inr response)
        (None :: (nextPageToken <$> init)) (init ++ [final])
    ∧ Forall (λ response, truthy (nextPageToken response) = true) init
    ∧ truthy (nextPageToken final) = false
    ∧ [doc "A"; doc "B"] = concat (response_files <$> init ++ [final]).
Proof.
  apply (list_owned_files_follows_tokens 2
           (mkFake alice [] [inr [doc "A"]; inr [doc "B"]] [] []) alice).
  reflexivity.
Defined.

(** ** [main]: exit code, phases, what is granted *)

Section Failing.
Context `{Drive W} (service : W).

(** A listing loop that raises has just made the request that failed. *)
Lemma folder_pages_loop_raise (fuel : nat) (query : string)
    (page_token : option string) (st : list string * list Item)
    (error : HttpError) :
  (folder_pages_loop fuel service query page_token st).2 = Raise error →
  ∃ req, FilesList req ∈ (folder_pages_loop fuel service query page_token st).1
         ∧ files_list service req = inl error.
Proof.
  revert page_token st. induction fuel as [|fuel IH]; intros page_token st; simpl.
  - done.
  - destruct (files_list service (mkListRequest _ _ _)) as [e|response] eqn:Hcall.
    + simpl. intros [= ->]. eexists. split; [apply list_elem_of_here | done].
    + destruct (negb _); [done|].
      specialize (IH (nextPageToken response)
                    (foldl visit_item st (response_files response))).
      destruct (folder_pages_loop _ _ _ _ _) as [t r]. simpl in *.
      intros Hr. destruct (IH Hr) as (req & Hin & Hfail).
      exists req. split; [by apply list_elem_of_further | done].
Qed.

Lemma list_owned_files_loop_raise (fuel : nat) (query : string)
    (page_token : option string) (files : list Item) (error : HttpError) :
  (list_owned_files_loop fuel service query page_token files).2 = Raise error →
  ∃ req, FilesList req ∈ (list_owned_files_loop fuel service query page_token files).1
         ∧ files_list service req = inl error.
Proof.
  revert page_token files.
  induction fuel as [|fuel IH]; intros page_token files; simpl.
  - done.
  - destruct (files_list service (mkListRequest _ _ _)) as [e|response] eqn:Hcall.
    + simpl. intros [= ->]. eexists. split; [apply list_elem_of_here | done].
    + destruct (negb _); [done|].
      specialize (IH (nextPageToken response) (files ++ response_files response)).
      destruct (list_owned_files_loop _ _ _ _ _) as [t r]. simpl in *.
      intros Hr. destruct (IH Hr) as (req & Hin & Hfail).
      exists req. split; [by apply list_elem_of_further | done].
Qed.

Lemma folders_loop_raise (fuel : nat) (source_email : string) (seen : gset string)
    (queue : list string) (files : list Item) (error : HttpError) :
  (folders_loop fuel service source_email seen queue files).2 = Raise error →
  ∃ req, FilesList req ∈ (folders_loop fuel service source_email seen queue files).1
         ∧ files_list service req = inl error.
Proof.
  revert seen queue files.
  induction fuel as [|fuel IH]; intros seen [|f queue] files; simpl; try done.
  case_decide; [apply IH|].
  pose proof (folder_pages_loop_raise fuel (folder_query source_email f) None
                (queue, files) error) as HP.
  destruct (folder_pages_loop _ _ _ _ _) as [t1 [[queue1 files1]| |]];
    simpl in *; [| |done].
  - specialize (IH (seen ∪ {[f]}) queue1 files1).
    destruct (folders_loop _ _ _ _ _ _) as [t2 r2]. simpl in *.
    intros Hr. destruct (IH Hr) as (req & Hin & Hfail).
    exists req. split; [|done]. apply elem_of_app. by right.
  - intros [= ->]. by apply HP.
Qed.

Lemma list_selected_raise (fuel : nat) (args : Args) (error : HttpError) :
  (list_selected fuel args service).2 = Raise error →
  ∃ req, FilesList req ∈ (list_selected fuel args service).1
         ∧ files_list service req = inl error.
Proof.
  unfold list_selected. destruct (truthy_list _).
  - apply folders_loop_raise.
  - apply list_owned_files_loop_raise.
Qed.

Lemma list_selected_dry_run (fuel : nat) (args : Args) (flag : bool) :
  list_selected fuel (with_dry_run args flag) service
  = list_selected fuel args service.
Proof. done. Qed.

(** A grant call of the transfer loop is a real run's call for an item of
    the list, with the owner permission for the target. *)
Lemma transfer_loop_grant (args : Args) (world : W) (files : list Item)
    (i : string) (body : Permission) :
  PermissionsCreate i body ∈ (transfer_loop args world files).1 →
  dry_run args = false ∧ body = owner_permission (target_email args)
  ∧ ∃ item, item ∈ files ∧ id item = i.
Proof.
  revert world. induction files as [|item files IH]; intros world; simpl.
  - by intros ?%elem_of_nil.
  - destruct (dry_run args) eqn:Hdry.
    + specialize (IH world). destruct (transfer_loop _ _ _) as [t w]. simpl in *.
      intros [?|Hin]%elem_of_cons; [done|].
      destruct (IH Hin) as (? & _); done.
    + unfold transfer_file. destruct (permissions_create _ _ _) as [world1 raised].
      specialize (IH world1). destruct (transfer_loop _ _ _) as [t w]. simpl in *.
      intros [Hin|Hin]%elem_of_cons.
      * injection Hin as -> ->. split_and!; [done..|]. exists item. set_solver.
      * apply elem_of_cons in Hin as [Hin|Hin]; [by destruct raised|].
        destruct (IH Hin) as (_ & Hb & item' & Hitem & Hid).
        split_and!; [done..|]. exists item'. set_solver.
Qed.

Lemma list_calls_filter_grant (t : list event) :
  Forall (λ ev, is_list_call ev = true) t →
  filter (λ ev, is_grant ev = true) t = [].
Proof.
  induction 1 as [|ev t Hev _ IH]; [done|].
  rewrite filter_cons_False; [done|]. by destruct ev.
Qed.

End Failing.

(** X5: when [main] exits, the code is 1 exactly when one of its listing
    requests failed, and 0 when all of them were answered; failed grant
    calls never change it. *)
Theorem main_exit_code `{Drive W} (fuel : nat) (args : Args) (service service' : W)
    (t : list event) (code : Z) :
  main fuel args service = (t, service', Some code) →
  (code = 1%Z
   ∧ ∃ req error, FilesList req ∈ t ∧ files_list service req = inl error)
  ∨ (code = 0%Z
     ∧ ∀ req, FilesList req ∈ t → ∃ response, files_list service req = inr response).
Proof.
  unfold main.
  pose proof (list_selected_raise service fuel args) as Hraise.
  pose proof (list_selected_failure fuel args service) as Hfail.
  destruct (list_selected fuel args service) as [tl r]. simpl in Hraise, Hfail.
  assert (∀ files t2, r = Done files →
            Forall (λ ev, is_list_call ev = false) t2 →
            ∀ req, FilesList req ∈ tl ++ t2 →
                   ∃ response, files_list service req = inr response) as Hok.
  { intros files t2 -> Ht2 req [Hin|Hin]%elem_of_app.
    - destruct (files_list service req) as [error|response] eqn:Hcall; [|by eexists].
      by specialize (Hfail req error Hin Hcall).
    - rewrite Forall_forall in Ht2. by apply Ht2 in Hin. }
  destruct r as [[|item files]|error|].
  - intros [= <- <- <-]. right. split; [done|].
    apply (Hok [] _ eq_refl). by repeat constructor.
  - pose proof (transfer_loop_no_list_call args service (item :: files)) as Hno.
    destruct (transfer_loop args service (item :: files)) as [t2 world2].
    intros [= <- <- <-]. right. split; [done|].
    apply (Hok _ _ eq_refl). by constructor.
  - intros [= <- <- <-]. left. split; [done|].
    destruct (Hraise error eq_refl) as (req & Hin & Hcall).
    exists req, error. split; [|done]. apply elem_of_app. by left.
  - done.
Qed.

Lemma main_exit_code_witness :
  (1%Z = 1%Z
   ∧ ∃ req error,
       FilesList req
       ∈ [FilesList (mkListRequest (folder_query alice "R") 200 None);
          FilesList (mkListRequest (folder_query alice "R") 200 (Some "p"));
          listing_failed_line (mkHttpError "500 backendError")]
       ∧ files_list broken req = inl error)
  ∨ (1%Z = 0%Z
     ∧ ∀ req,
         FilesList req
         ∈ [FilesList (mkListRequest (folder_query alice "R") 200 None);
            FilesList (mkListRequest (folder_query alice "R") 200 (Some "p"));
            listing_failed_line (mkHttpError "500 backendError")] →
         ∃ response, files_list broken req = inr response).
Proof.
  apply (main_exit_code 5 (mkArgs alice bob (Some ["R"]) false) broken broken).
  vm_compute. reflexivity.
Defined.

(** X6: [main] finishes listing before it transfers anything: its trace is
    the trace of the listing followed by events none of which is a listing
    request. *)
Theorem main_lists_before_transferring `{Drive W} (fuel : nat) (args : Args)
    (service : W) :
  ∃ t2,
    (main fuel args service).1.1 = (list_selected fuel args service).1 ++ t2
    ∧ Forall (λ ev, is_list_call ev = true) (list_selected fuel args service).1
    ∧ Forall (λ ev, is_list_call ev = false) t2.
Proof.
  unfold main. pose proof (list_selected_calls fuel args service) as Hcalls.
  destruct (list_selected fuel args service) as [tl r]. simpl in Hcalls.
  destruct r as [[|item files]|error|].
  - eexists. split_and!; [done | done | by repeat constructor].
  - pose proof (transfer_loop_no_list_call args service (item :: files)) as Hno.
    destruct (transfer_loop args service (item :: files)) as [t2 world2].
    eexists. split_and!; [done | done | by constructor].
  - eexists. split_and!; [done | done | by repeat constructor].
  - exists []. rewrite app_nil_r. split_and!; [done | done | constructor].
Qed.

(** X7: with folder IDs given, every grant call that [main] makes is made
    in a real run, carries the owner permission for the target address, and
    is for an item listed under a folder reachable from the given ones. *)
Theorem scoped_run_grants_only_listed_items `{Drive W} (fuel : nat) (args : Args)
    (service : W) (roots : list string) (i : string) (body : Permission) :
  folder_ids args = Some roots → roots ≠ [] →
  PermissionsCreate i body ∈ (main fuel args service).1.1 →
  dry_run args = false
  ∧ body = owner_permission (target_email args)
  ∧ ∃ item, id item = i
            ∧ reachable_item service (source_email args) roots item.
Proof.
  intros Hids Hne. destruct roots as [|r roots]; [done|].
  assert (list_selected fuel args service
          = list_owned_in_folders fuel service (source_email args) (r :: roots))
    as Hsel by (unfold list_selected; by rewrite Hids).
  unfold main. rewrite Hsel.
  pose proof (folders_loop_calls service fuel (source_email args) ∅ (r :: roots) [])
    as Hcalls.
  unfold list_owned_in_folders.
  destruct (folders_loop fuel service (source_email args) ∅ (r :: roots) [])
    as [tl res] eqn:Hrun.
  simpl in Hcalls. apply list_calls_no_grant in Hcalls.
  assert (∀ ev, ev ∈ tl → is_grant ev = false) as Htl
    by (by apply Forall_forall).
  destruct res as [[|item files]|error|].
  - simpl. intros [Hin|Hin]%elem_of_app; [by apply Htl in Hin|]. set_solver.
  - pose proof (transfer_loop_grant args service (item :: files) i body) as Hgrant.
    destruct (transfer_loop args service (item :: files)) as [t2 world2].
    simpl in *. intros [Hin|Hin]%elem_of_app; [by apply Htl in Hin|].
    apply elem_of_cons in Hin as [?|Hin]; [done|].
    destruct (Hgrant Hin) as (Hreal & Hbody & it & Hit & Hid).
    split_and!; [done..|]. exists it. split; [done|].
    destruct (list_owned_in_folders_done service (source_email args) fuel
                (r :: roots) tl (item :: files) Hrun)
      as (order & chunks & _ & Hreach & Hch & Hres & _).
    rewrite Hres in Hit.
    apply (elem_of_chunks service (source_email args) order chunks it Hch) in Hit
      as (f & items & Hf & Hfi & Hin').
    exists f, items. split_and!; [by apply Hreach | done..].
  - simpl. intros [Hin|Hin]%elem_of_app; [by apply Htl in Hin|]. set_solver.
  - simpl. intros Hin. by apply Htl in Hin.
Qed.

Lemma scoped_run_grants_only_listed_items_witness :
  dry_run (mkArgs alice bob (Some ["R"]) false) = false
  ∧ owner_permission bob = owner_permission bob
  ∧ ∃ item, id item = "d1" ∧ reachable_item tree alice ["R"] item.
Proof.
  apply (scoped_run_grants_only_listed_items 4 (mkArgs alice bob (Some ["R"]) false)
           tree ["R"] "d1" (owner_permission bob)); [done | done |].
  vm_compute. set_solver.
Defined.

(** X8: a dry run previews the real run: on the same drive, the items named
    by the "would transfer" lines of the dry run are, in the same order, the
    items for which the real run makes its grant calls. *)
Theorem dry_run_previews_real_run `{Drive W} (fuel : nat) (args : Args)
    (service : W) (t : list event) (files : list Item) :
  list_selected fuel args service = (t, Done files) → files ≠ [] →
  main fuel (with_dry_run args true) service
  = (t ++ found_line files :: (would_transfer_line <$> files), service, Some 0%Z)
  ∧ filter (λ ev, is_grant ev = true)
           (main fuel (with_dry_run args false) service).1.1
    = (λ item, PermissionsCreate (id item) (owner_permission (target_email args)))
      <$> files.
Proof.
  intros Hlist Hne. unfold main. rewrite !list_selected_dry_run, Hlist.
  pose proof (list_selected_calls fuel args service) as Hcalls.
  rewrite Hlist in Hcalls. simpl in Hcalls.
  destruct files as [|item files]; [done|]. split.
  - by rewrite (transfer_loop_dry _ service (item :: files)).
  - rewrite (transfer_loop_real _ service (item :: files)) by done.
    cbn [fst]. rewrite filter_app, (list_calls_filter_grant t Hcalls).
    rewrite filter_cons_False by done. rewrite app_nil_l.
    apply transfer_events_calls. by rewrite grant_all_length, length_fmap.
Qed.

Lemma dry_run_previews_real_run_witness :
  main 4 (with_dry_run (mkArgs alice bob (Some ["R"]) false) true) tree
  = ([FilesList (mkListRequest (folder_query alice "R") 200 None);
      FilesList (mkListRequest (folder_query alice "R") 200 (Some "p"));
      FilesList (mkListRequest (folder_query alice "D") 200 None)]
     ++ found_line [folder "D"; doc "r1"; doc "r2"; doc "d1"]
        :: (would_transfer_line <$> [folder "D"; doc "r1"; doc "r2"; doc "d1"]),
     tree, Some 0%Z)
  ∧ filter (λ ev, is_grant ev = true)
      (main 4 (with_dry_run (mkArgs alice bob (Some ["R"]) false) false) tree).1.1
    = (λ item, PermissionsCreate (id item) (owner_permission bob))
      <$> [folder "D"; doc "r1"; doc "r2"; doc "d1"].
Proof.
  apply (dry_run_previews_real_run 4 (mkArgs alice bob (Some ["R"]) false) tree).
  - vm_compute. reflexivity.
  - discriminate.
Defined.

(** ** load_credentials *)

Ltac auth_run :=
  unfold load_credentials, authorize, act_bind, act_ret in *;
  repeat (case_match; simplify_eq/=).

(** X9: [load_credentials] writes nothing but the token file, and only
    after the browser flow has run; whenever it returns after that flow, the
    token file has been written with the JSON of the credentials it
    returns.  Credentials that were only refreshed are not written back. *)
Theorem token_written_iff_authorized `{Auth E F} (client_secret_path token_path : string)
    (env env' : E) (t : list auth_event) (r : attempt Credentials) :
  load_credentials client_secret_path token_path env = (t, env', r) →
  (∀ path content, WriteToken path content ∈ t →
     path = token_path ∧ RunLocalServer ∈ t)
  ∧ (∀ creds, r = Returned creds → RunLocalServer ∈ t →
       WriteToken token_path (to_json creds) ∈ t).
Proof.
  intros Hrun. split.
  - intros path content Hin. auth_run; set_solver.
  - intros creds -> Hflow. auth_run; set_solver.
Qed.

Lemma token_written_iff_authorized_witness :
  (∀ path content,
     WriteToken path content
     ∈ [LoadClientSecrets "client_secret.json"; RunLocalServer;
        WriteToken "token.json" "new"] →
     path = "token.json"
     ∧ RunLocalServer ∈ [LoadClientSecrets "client_secret.json"; RunLocalServer;
                         WriteToken "token.json" "new"])
  ∧ (∀ creds, Returned new_creds = Returned creds →
       RunLocalServer ∈ [LoadClientSecrets "client_secret.json"; RunLocalServer;
                         WriteToken "token.json" "new"] →
       WriteToken "token.json" (to_json creds)
       ∈ [LoadClientSecrets "client_secret.json"; RunLocalServer;
          WriteToken "token.json" "new"]).
Proof.
  apply (token_written_iff_authorized "client_secret.json" "token.json"
           first_run_env
           (mkFakeEnv [("token.json", "new"); ("client_secret.json", "secret")]
              [("good", good_creds); ("stale", stale_creds)]
              (Raised "RefreshError") (Returned new_creds) false)).
  reflexivity.
Defined.

(** X10: the credentials that [load_credentials] returns are valid, unless
    they are the ones the browser flow has just produced; stored
    credentials that are not valid (after a refresh, if one was due) are
    never returned. *)
Theorem returned_credentials_valid_or_new `{Auth E F}
    (client_secret_path token_path : string) (env env' : E)
    (t : list auth_event) (creds : Credentials) :
  load_credentials client_secret_path token_path env = (t, env', Returned creds) →
  (valid creds = true ∧ RunLocalServer ∉ t ∧ LoadClientSecrets client_secret_path ∉ t)
  ∨ (∃ flow env1 env2,
       from_client_secrets_file env1 client_secret_path SCOPES = Returned flow
       ∧ run_local_server env1 flow = (env2, Returned creds)
       ∧ RunLocalServer ∈ t).
Proof.
  intros Hrun. auth_run;
    try (left; split_and!; [done | set_solver..]);
    right; do 3 eexists; split_and!; eauto; set_solver.
Qed.

Lemma returned_credentials_valid_or_new_witness :
  (valid good_creds = true ∧ RunLocalServer ∉ [ReadToken "token.json"; Refresh]
   ∧ LoadClientSecrets "client_secret.json" ∉ [ReadToken "token.json"; Refresh])
  ∨ (∃ flow env1 env2,
       from_client_secrets_file env1 "client_secret.json" SCOPES = Returned flow
       ∧ run_local_server env1 flow = (env2, Returned good_creds)
       ∧ RunLocalServer ∈ [ReadToken "token.json"; Refresh]).
Proof.
  apply (returned_credentials_valid_or_new "client_secret.json" "token.json"
           stale_env stale_env).
  reflexivity.
Defined.

(** X11: there is no fallback to the browser flow when the stored token
    cannot be used because an operation raises: if reading the token file
    raises, or if the refresh of expired stored credentials raises,
    [load_credentials] raises that exception, having started no flow and
    written nothing. *)
Theorem no_reauthorization_after_exception `{Auth E F}
    (client_secret_path token_path : string) (env : E) (exception : string) :
  path_exists env token_path = true →
  (from_authorized_user_file env token_path SCOPES = Raised exception
   → load_credentials client_secret_path token_path env
     = ([ReadToken token_path], env, Raised exception))
  ∧ (∀ creds env1,
       from_authorized_user_file env token_path SCOPES = Returned creds →
       expired creds = true → truthy (refresh_token creds) = true →
       refresh env creds = (env1, Raised exception) →
       load_credentials client_secret_path token_path env
       = ([ReadToken token_path; Refresh], env1, Raised exception)).
Proof.
  intros Hexists. split.
  - intros Hread. unfold load_credentials, act_bind. by rewrite Hexists, Hread.
  - intros creds env1 Hread Hexp Htok Hrefresh.
    unfold load_credentials, act_bind.
    rewrite Hexists, Hread, Hexp, Htok. simpl. by rewrite Hrefresh.
Qed.

Lemma no_reauthorization_after_exception_witness :
  load_credentials "client_secret.json" "token.json" revoked_env
  = ([ReadToken "token.json"; Refresh], revoked_env, Raised "RefreshError").
Proof.
  destruct (no_reauthorization_after_exception "client_secret.json" "token.json"
              revoked_env "RefreshError") as [_ Hrefresh]; [reflexivity|].
  apply (Hrefresh stale_creds revoked_env); reflexivity.
Defined.

(** X12: a refresh is attempted at most once, and only when the token file
    exists and the credentials read from it are expired and carry a
    non-empty refresh token. *)
Theorem refresh_only_for_expired_stored_credentials `{Auth E F}
    (client_secret_path token_path : string) (env env' : E)
    (t : list auth_event) (r : attempt Credentials) :
  load_credentials client_secret_path token_path env = (t, env', r) →
  length (filter (λ ev, ev = Refresh) t) ≤ 1
  ∧ (Refresh ∈ t →
     path_exists env token_path = true
     ∧ ∃ creds, from_authorized_user_file env token_path SCOPES = Returned creds
                ∧ expired creds = true ∧ truthy (refresh_token creds) = true).
Proof.
  intros Hrun. split.
  - auth_run; cbn; lia.
  - intros Hin. auth_run; try set_solver;
      (split; [done|]; eexists; split; [done|]; by apply andb_true_iff).
Qed.

Lemma refresh_only_for_expired_stored_credentials_witness :
  length (filter (λ ev, ev = Refresh) [ReadToken "token.json"; Refresh]) ≤ 1
  ∧ (Refresh ∈ [ReadToken "token.json"; Refresh] →
     path_exists stale_env "token.json" = true
     ∧ ∃ creds,
         from_authorized_user_file stale_env "token.json" SCOPES = Returned creds
         ∧ expired creds = true ∧ truthy (refresh_token creds) = true).
Proof.
  apply (refresh_only_for_expired_stored_credentials "client_secret.json"
           "token.json" stale_env stale_env [ReadToken "token.json"; Refresh]
           (Returned good_creds)).
  reflexivity.
Defined.

(** ** What the traversal does with the items a query returns *)

Lemma first_seen_elem (seen : gset string) (ids : list string) (i : string) :
  i ∈ first_seen seen ids ↔ i ∈ ids ∧ i ∉ seen.
Proof.
  revert seen. induction ids as [|j ids IH]; intros seen; simpl.
  - split; [by intros ?%elem_of_nil | by intros [?%elem_of_nil _]].
  - case_decide as Hj.
    + rewrite IH. set_solver.
    + rewrite elem_of_cons, IH. split.
      * intros [->|[Hin Hout]]; set_solver.
      * intros [[->|Hin]%elem_of_cons Hout]; [by left|].
        destruct (decide (i = j)) as [->|Hne]; [by left | right; set_solver].
Qed.

Lemma first_page_queries_elem (t : list event) (query : string) :
  query ∈ first_page_queries t
  ↔ ∃ size, FilesList (mkListRequest query size None) ∈ t.
Proof.
  unfold first_page_queries. rewrite list_elem_of_omap. split.
  - intros (ev & Hin & Hev). destruct ev as [[q0 size [tok|]]| | |]; try done.
    injection Hev as ->. by exists size.
  - intros [size Hin]. by eexists.
Qed.

Section Visiting.
Context `{Drive W} (service : W) (source_email : string).

(** The folders whose first page a completed scoped listing requested are
    the first occurrences among the given IDs and the folder items of the
    result. *)
Lemma first_page_requested (fuel : nat) (roots : list string) (t : list event)
    (result : list Item) (f : string) :
  list_owned_in_folders fuel service source_email roots = (t, Done result) →
  FilesList (mkListRequest (folder_query source_email f) 200 None) ∈ t
  ↔ f ∈ roots ++ folder_ids_of result.
Proof.
  intros Hrun.
  destruct (folders_loop_order service source_email fuel ∅ roots [] t result Hrun)
    as (chunks & Hres & _ & Htr).
  destruct (folders_loop_requests service source_email fuel ∅ roots [] t result
              Hrun) as (new & _ & Hreq).
  simpl in Hres. subst result. split.
  - intros Hin.
    assert (folder_query source_email f ∈ first_page_queries t) as Hq
      by (apply first_page_queries_elem; by eexists).
    rewrite Htr in Hq.
    apply list_elem_of_fmap in Hq as (g & Hfg%folder_query_inj & Hg). subst g.
    by apply first_seen_elem in Hg as [Hg _].
  - intros Hin.
    assert (folder_query source_email f ∈ first_page_queries t) as Hq.
    { rewrite Htr. apply list_elem_of_fmap. exists f. split; [done|].
      apply first_seen_elem. split; [done | set_solver]. }
    apply first_page_queries_elem in Hq as [size Hq].
    by destruct (Hreq _ Hq) as [<- _].
Qed.

End Visiting.

(** C6: in the scoped traversal every item that a folder query returns is
    appended to the result, and its ID is put at the back of the queue
    exactly when it is a folder.  One turn of the outer loop on a folder
    not yet seen continues with the result extended by all the items the
    query returned, in order, and the queue extended by the IDs of the
    folders among them, and by nothing else.  So in a completed listing
    every item returned by a query that was made is in the result, every
    folder item of the result has had its own children requested, and the
    children of an ID are requested only if it was given or is the ID of a
    folder item of the result. *)
Theorem traversal_appends_items_and_enqueues_folders `{Drive W} (service : W)
    (source_email : string) :
  (∀ fuel seen f queue files items,
     f ∉ seen →
     listing fuel service (folder_query source_email f) 200 None = Done items →
     folders_loop (S fuel) service source_email seen (f :: queue) files
     = ((folder_pages_loop fuel service (folder_query source_email f) None
           (queue, files)).1
        ++ (folders_loop fuel service source_email (seen ∪ {[f]})
              (queue ++ (id <$> filter (λ item, is_folder item = true) items))
              (files ++ items)).1,
        (folders_loop fuel service source_email (seen ∪ {[f]})
           (queue ++ (id <$> filter (λ item, is_folder item = true) items))
           (files ++ items)).2))
  ∧ (∀ fuel roots t result,
       list_owned_in_folders fuel service source_email roots = (t, Done result) →
       (∀ f items item,
          FilesList (mkListRequest (folder_query source_email f) 200 None) ∈ t →
          children service source_email f items → item ∈ items → item ∈ result)
       ∧ (∀ item, item ∈ result → is_folder item = true →
            FilesList (mkListRequest (folder_query source_email (id item)) 200 None)
            ∈ t)
       ∧ (∀ f,
            FilesList (mkListRequest (folder_query source_email f) 200 None) ∈ t →
            f ∈ roots
            ∨ ∃ item, item ∈ result ∧ is_folder item = true ∧ id item = f)).
Proof.
  split.
  - intros fuel seen f queue files items Hf Hitems.
    rewrite folders_loop_unseen by done.
    pose proof (folder_pages_loop_listing service fuel
                  (folder_query source_email f) None queue files) as HL.
    rewrite Hitems in HL.
    destruct (folder_pages_loop _ _ _ _ _) as [t1 r1]. simpl in HL. subst r1.
    fold (folder_ids_of items).
    by destruct (folders_loop _ _ _ _ _ _).
  - intros fuel roots t result Hrun. split_and!.
    + intros f items item Hreq Hfi Hin.
      apply (first_page_requested service source_email fuel roots t result f Hrun)
        in Hreq.
      destruct (list_owned_in_folders_done service source_email fuel roots t result
                  Hrun) as (order & chunks & _ & Hreach & Hch & -> & _).
      apply (elem_of_chunks service source_email order chunks item Hch).
      exists f, items. split_and!; [|done..]. apply Hreach.
      apply elem_of_app in Hreq as [Hr|Hr]; [by apply reach_root|].
      unfold folder_ids_of in Hr.
      apply list_elem_of_fmap in Hr
        as (parent & -> & [Hfolder Hparent]%list_elem_of_filter).
      apply (elem_of_chunks service source_email order chunks parent Hch)
        in Hparent as (g & listed & Hg & Hgl & Hpl).
      apply (reach_step service source_email roots g); [by apply Hreach|].
      exists listed. split; [done|]. unfold folder_ids_of.
      apply list_elem_of_fmap. exists parent. split; [done|].
      by apply list_elem_of_filter.
    + intros item Hin Hfolder.
      apply (first_page_requested service source_email fuel roots t result _ Hrun).
      apply elem_of_app. right. unfold folder_ids_of.
      apply list_elem_of_fmap. exists item. split; [done|].
      by apply list_elem_of_filter.
    + intros f Hreq.
      apply (first_page_requested service source_email fuel roots t result f Hrun)
        in Hreq.
      apply elem_of_app in Hreq as [Hr|Hr]; [by left|]. right.
      unfold folder_ids_of in Hr.
      apply list_elem_of_fmap in Hr
        as (item & -> & [Hfolder Hitem]%list_elem_of_filter).
      by exists item.
Qed.

Lemma tree_run :
  list_owned_in_folders 4 tree alice ["R"]
  = ([FilesList (mkListRequest (folder_query alice "R") 200 None);
      FilesList (mkListRequest (folder_query alice "R") 200 (Some "p"));
      FilesList (mkListRequest (folder_query alice "D") 200 None)],
     Done [folder "D"; doc "r1"; doc "r2"; doc "d1"]).
Proof. vm_compute. reflexivity. Qed.

Lemma traversal_appends_items_and_enqueues_folders_witness :
  folders_loop 4 tree alice ∅ ["R"] []
  = ((folder_pages_loop 3 tree (folder_query alice "R") None ([], [])).1
     ++ (folders_loop 3 tree alice (∅ ∪ {["R"]}) ["D"]
           [folder "D"; doc "r1"; doc "r2"]).1,
     (folders_loop 3 tree alice (∅ ∪ {["R"]}) ["D"]
        [folder "D"; doc "r1"; doc "r2"]).2)
  ∧ doc "d1" ∈ [folder "D"; doc "r1"; doc "r2"; doc "d1"]
  ∧ FilesList (mkListRequest (folder_query alice (id (folder "D"))) 200 None)
    ∈ [FilesList (mkListRequest (folder_query alice "R") 200 None);
       FilesList (mkListRequest (folder_query alice "R") 200 (Some "p"));
       FilesList (mkListRequest (folder_query alice "D") 200 None)].
Proof.
  destruct (traversal_appends_items_and_enqueues_folders tree alice)
    as [Hstep Hrun].
  destruct (Hrun 4 ["R"] _ _ tree_run) as (Hall & Hfolders & _).
  split_and!.
  - apply (Hstep 3 ∅ "R" [] [] [folder "D"; doc "r1"; doc "r2"]);
      [set_solver | reflexivity].
  - apply (Hall "D" [doc "d1"] (doc "d1")); [set_solver | by exists 1 | set_solver].
  - apply (Hfolders (folder "D")); [set_solver | reflexivity].
Defined.

(** X2: every request of a completed scoped listing asks, with page size
    200, for the children of one of the given IDs (whatever its kind) or of
    a folder item of the result.  So the children of an item of the result
    that is not a folder are never requested, unless its ID was given as
    input or is also the ID of a folder item of the result. *)
Theorem scoped_requests_only_for_folders `{Drive W} (fuel : nat) (service : W)
    (source_email : string) (roots : list string) (t : list event)
    (result : list Item) :
  list_owned_in_folders fuel service source_email roots = (t, Done result) →
  (∀ req, FilesList req ∈ t →
     pageSize req = 200
     ∧ ∃ f, q req = folder_query source_email f
            ∧ (f ∈ roots
               ∨ ∃ item, item ∈ result ∧ is_folder item = true ∧ id item = f))
  ∧ (∀ item, item ∈ result → is_folder item = false → id item ∉ roots →
       (∀ other, other ∈ result → is_folder other = true → id other ≠ id item) →
       ∀ req, FilesList req ∈ t → q req ≠ folder_query source_email (id item)).
Proof.
  intros Hrun.
  assert (∀ req, FilesList req ∈ t →
     pageSize req = 200
     ∧ ∃ f, q req = folder_query source_email f
            ∧ (f ∈ roots
               ∨ ∃ item, item ∈ result ∧ is_folder item = true ∧ id item = f))
    as Hshape.
  { intros req Hin.
    destruct (folders_loop_requests service source_email fuel ∅ roots [] t result
                Hrun) as (new & Hres & Hreq).
    simpl in Hres. subst new.
    destruct (Hreq req Hin) as (Hsize & f & Hq & Hf).
    split; [done|]. exists f. split; [done|].
    destruct Hf as [Hf|Hf]; [by left|]. right.
    unfold folder_ids_of in Hf.
    apply list_elem_of_fmap in Hf
      as (item & -> & [Hfolder Hitem]%list_elem_of_filter).
    by exists item. }
  split; [done|].
  intros item Hitem Hfile Hroot Hothers req Hin Hq.
  destruct (Hshape req Hin) as (_ & f & Hqf & Hf).
  rewrite Hq in Hqf. apply folder_query_inj in Hqf. subst f.
  destruct Hf as [Hf|(other & Hother & Hfolder & Hid)]; [done|].
  by apply (Hothers other).
Qed.

Lemma scoped_requests_only_for_folders_witness :
  (pageSize (mkListRequest (folder_query alice "D") 200 None) = 200
   ∧ ∃ f, q (mkListRequest (folder_query alice "D") 200 None) = folder_query alice f
          ∧ (f ∈ ["R"]
             ∨ ∃ item, item ∈ [folder "D"; doc "r1"; doc "r2"; doc "d1"]
                       ∧ is_folder item = true ∧ id item = f))
  ∧ (∀ req,
       FilesList req
       ∈ [FilesList (mkListRequest (folder_query alice "R") 200 None);
          FilesList (mkListRequest (folder_query alice "R") 200 (Some "p"));
          FilesList (mkListRequest (folder_query alice "D") 200 None)] →
       q req ≠ folder_query alice (id (doc "r1"))).
Proof.
  destruct (scoped_requests_only_for_folders 4 tree alice ["R"] _ _ tree_run)
    as [Hshape Hfiles].
  split.
  - apply Hshape. set_solver.
  - apply (Hfiles (doc "r1")); [set_solver | reflexivity | set_solver |].
    intros other Hother Hfolder.
    repeat (apply elem_of_cons in Hother as [->|Hother]); try done.
    by apply elem_of_nil in Hother.
Defined.
